(** * whisper_real_time: a shallow embedding of [transcribe_demo.py]

    The development follows the layout of the Python module:
    the Python values the program manipulates ([str], [bytes], exceptions),
    a small state-and-exception monad in which the effectful functions are
    written, the helper functions in source order, and finally [main] with
    its polling loop.  Theorems come after all definitions. *)

From Stdlib Require Import ZArith NArith String Ascii List Bool Lia.
From Stdlib Require Import Strings.Byte.
From Stdlib Require Import Floats.SpecFloat.
From Equations Require Import Equations.
Import ListNotations.
Local Open Scope Z_scope.

(* ===================================================================== *)
(** ** Python values *)
(* ===================================================================== *)

(** A Python [str] is a sequence of Unicode code points. *)
Definition char := N.
Definition str := list char.

(** String literals of the source, written as Rocq strings. *)
Definition lit (s : string) : str := map N_of_ascii (list_ascii_of_string s).

(** ['\n'] *)
Definition NL : char := 10%N.

Fixpoint str_eqb (a b : str) : bool :=
  match a, b with
  | [], [] => true
  | x :: a', y :: b' => N.eqb x y && str_eqb a' b'
  | _, _ => false
  end.

(** [s.startswith(p)] *)
Fixpoint startswith (p s : str) : bool :=
  match p, s with
  | [], _ => true
  | x :: p', y :: s' => N.eqb x y && startswith p' s'
  | _ :: _, [] => false
  end.

(** [sub in s] on strings: [sub] occurs as a contiguous slice of [s]. *)
Fixpoint contains (sub s : str) : bool :=
  startswith sub s ||
  match s with
  | [] => false
  | _ :: s' => contains sub s'
  end.

(** [c * n] for a one-character string [c]: the source uses ['\n' * 50]. *)
Definition str_mul (s : str) (n : nat) : str := concat (repeat s n).

(** Code points that [str.strip()] removes (CPython's whitespace table:
    the ASCII controls TAB..CR and FS..US, SPACE, NEL, NBSP and the
    Unicode space separators and line/paragraph separators). *)
Definition isspace (c : char) : bool :=
  ((9 <=? c) && (c <=? 13) || (28 <=? c) && (c <=? 32)
   || (c =? 0x85) || (c =? 0xA0) || (c =? 0x1680)
   || (0x2000 <=? c) && (c <=? 0x200A)
   || (c =? 0x2028) || (c =? 0x2029) || (c =? 0x202F)
   || (c =? 0x205F) || (c =? 0x3000))%N.

Fixpoint lstrip (s : str) : str :=
  match s with
  | [] => []
  | c :: s' => if isspace c then lstrip s' else s
  end.

Definition rstrip (s : str) : str := rev (lstrip (rev s)).

(** [s.strip()] *)
Definition strip (s : str) : str := rstrip (lstrip s).

(** Truth value of a sequence: non-empty. *)
Definition truthy {A : Type} (l : list A) : bool :=
  match l with
  | [] => false
  | _ :: _ => true
  end.

(** [sep.join(parts)], for [str] and for [bytes] alike. *)
Fixpoint join {A : Type} (sep : list A) (parts : list (list A)) : list A :=
  match parts with
  | [] => []
  | [p] => p
  | p :: rest => p ++ sep ++ join sep rest
  end.

(** A Python [bytes] object. *)
Definition bytes := list byte.

(** [datetime] values and [timedelta] values, both in microseconds (the
    resolution of the two Python types). *)
Definition datetime := Z.
Definition timedelta := Z.

(** Python [float]: the IEEE-754 values, with NaN and the infinities. *)
Definition float := spec_float.

(** [x < 0] on an [int]. *)
Definition int_ltb0 (x : Z) : bool := x <? 0.

(** [x <= 0] on a [float]: false on NaN. *)
Definition float_leb0 (x : float) : bool := SFleb x (S754_zero false).

(* ===================================================================== *)
(** ** Exceptions *)
(* ===================================================================== *)

(** The exception classes the program raises or catches. *)
Inductive exn_class :=
| ValueError
| RuntimeError
| OSError              (* [IOError] is the same class *)
| FileNotFoundError    (* subclass of [OSError] *)
| PermissionError      (* subclass of [OSError] *)
| SubprocessError
| CalledProcessError   (* subclass of [SubprocessError] *)
| IndexError
| Empty                (* [queue.Empty] *)
| OtherException.      (* any other subclass of [Exception] *)

(** A raised exception.  [KeyboardInterrupt] and [SystemExit] derive from
    [BaseException], not from [Exception]. *)
Inductive exn :=
| Exn (c : exn_class) (msg : str)
| KeyboardInterrupt
| SystemExit (code : Z).

Definition exn_class_eqb (a b : exn_class) : bool :=
  match a, b with
  | ValueError, ValueError | RuntimeError, RuntimeError | OSError, OSError
  | FileNotFoundError, FileNotFoundError | PermissionError, PermissionError
  | SubprocessError, SubprocessError
  | CalledProcessError, CalledProcessError | IndexError, IndexError
  | Empty, Empty | OtherException, OtherException => true
  | _, _ => false
  end.

(** [issubclass(c, parent)] *)
Definition subclass (c parent : exn_class) : bool :=
  exn_class_eqb c parent ||
  match c, parent with
  | FileNotFoundError, OSError => true
  | PermissionError, OSError => true
  | CalledProcessError, SubprocessError => true
  | _, _ => false
  end.

(** [except (c1, c2, ...)] *)
Definition except_classes (cs : list exn_class) (e : exn) : bool :=
  match e with
  | Exn c _ => existsb (subclass c) cs
  | _ => false
  end.

(** [except Exception] *)
Definition except_Exception (e : exn) : bool :=
  match e with
  | Exn _ _ => true
  | _ => false
  end.

(** [except KeyboardInterrupt] *)
Definition except_KeyboardInterrupt (e : exn) : bool :=
  match e with
  | KeyboardInterrupt => true
  | _ => false
  end.

(** [str(e)] / [f"{e}"] for an exception built from one message. *)
Definition exn_str (e : exn) : str :=
  match e with
  | Exn _ msg => msg
  | KeyboardInterrupt => []
  | SystemExit _ => []
  end.

(** Outcome of a call: a value or a raised exception. *)
Inductive res (A : Type) :=
| Ret (a : A)
| Raise (e : exn).
Arguments Ret {A} a.
Arguments Raise {A} e.

(* ===================================================================== *)
(** ** Constants *)
(* ===================================================================== *)

Definition DEFAULT_ENERGY_THRESHOLD : Z := 1000.
Definition DEFAULT_RECORD_TIMEOUT : float := S754_finite false 1 1.   (* 2.0 *)
Definition DEFAULT_PHRASE_TIMEOUT : float := S754_finite false 3 0.   (* 3.0 *)
Definition DEFAULT_MODEL : str := lit "medium".
Definition SAMPLE_RATE : Z := 16000.
Definition AUDIO_NORMALIZATION_FACTOR : Z := 32768.
Definition SLEEP_INTERVAL : float := S754_finite false 1 (-2).        (* 0.25 *)
Definition CONSOLE_CLEAR_FALLBACK_LINES : nat := 50.

(* ===================================================================== *)
(** ** The queue shared with the capture thread *)
(* ===================================================================== *)

(** [queue.Queue()] (unbounded), seen from one thread: the oldest element
    is at the head of the list. *)
Module Queue.
Definition t := list bytes.

Definition new : t := [].

Definition empty (q : t) : bool :=
  match q with
  | [] => true
  | _ :: _ => false
  end.

Definition qsize (q : t) : nat := List.length q.

Definition put (item : bytes) (q : t) : t := q ++ [item].

(** [get_nowait()]: [None] stands for raising [queue.Empty], which
    leaves the queue as it is. *)
Definition get_nowait (q : t) : option (bytes * t) :=
  match q with
  | [] => None
  | item :: q' => Some (item, q')
  end.

(** [put] called for each chunk of a list, in order. *)
Definition put_all (items : list bytes) (q : t) : t :=
  fold_left (fun q item => put item q) items q.
End Queue.

(* ===================================================================== *)
(** ** Effects: observable events, program state, and the monad *)
(* ===================================================================== *)

(** The result dictionary of [audio_model.transcribe]: the key ['text'],
    and the key ['segments'] when present; a segment is represented by its
    ['no_speech_prob'] entry ([None] when the key is missing). *)
Record transcribe_result := {
  result_text : str;
  result_segments : option (list (option float))
}.

(** What the program does to the outside world, in order. *)
Inductive event :=
| LogInfo (msg : str)
| LogWarning (msg : str)
| LogError (msg : str)
| PrintCall (s : str) (end_ : str)             (* [print(s, end=end_)] *)
| SubprocessRun (cmd : list str) (shell : bool)
| ListMicrophoneNames
| OpenMicrophone (device_index : option nat)
| SetEnergyThreshold (energy : Z)
| LoadModel (name : str)
| AdjustForAmbientNoise
| ListenInBackground (phrase_time_limit : float)
| StopListening
| Sleep (seconds : float)
| Transcribe (audio_np : list Z) (fp16 : bool).

(** The mutable state: the event trace, the text files on disk, the shared
    queue, and the two locals of [main] that the loop updates. *)
Record state := {
  trace : list event;
  files : str -> option str;
  data_queue : Queue.t;
  phrase_time : option datetime;
  transcription : list str
}.

Definition set_trace (t : list event) (s : state) : state :=
  {| trace := t; files := files s; data_queue := data_queue s;
     phrase_time := phrase_time s; transcription := transcription s |}.
Definition set_files (f : str -> option str) (s : state) : state :=
  {| trace := trace s; files := f; data_queue := data_queue s;
     phrase_time := phrase_time s; transcription := transcription s |}.
Definition set_data_queue (q : Queue.t) (s : state) : state :=
  {| trace := trace s; files := files s; data_queue := q;
     phrase_time := phrase_time s; transcription := transcription s |}.
Definition set_phrase_time (p : option datetime) (s : state) : state :=
  {| trace := trace s; files := files s; data_queue := data_queue s;
     phrase_time := p; transcription := transcription s |}.
Definition set_transcription (l : list str) (s : state) : state :=
  {| trace := trace s; files := files s; data_queue := data_queue s;
     phrase_time := phrase_time s; transcription := l |}.

(** Computations: they thread the state and may raise; the state reached
    when an exception is raised is kept, as in Python. *)
Definition M (A : Type) : Type := state -> res A * state.

Definition ret {A} (a : A) : M A := fun s => (Ret a, s).
Definition raise {A} (e : exn) : M A := fun s => (Raise e, s).
Definition bind {A B} (m : M A) (k : A -> M B) : M B :=
  fun s =>
    match m s with
    | (Ret a, s') => k a s'
    | (Raise e, s') => (Raise e, s')
    end.
Definition lift {A} (r : res A) : M A := fun s => (r, s).
Definition gets {A} (f : state -> A) : M A := fun s => (Ret (f s), s).
Definition modify (f : state -> state) : M unit := fun s => (Ret tt, f s).
Definition emit (ev : event) : M unit :=
  modify (fun s => set_trace (trace s ++ [ev]) s).

Notation "x <- m ;; k" := (bind m (fun x => k))
  (at level 61, m at next level, right associativity).
Notation "m ;; k" := (bind m (fun _ => k))
  (at level 61, right associativity).

(** [try: m  except <catches> as e: handler e] *)
Definition try_except {A} (m : M A) (catches : exn -> bool)
    (handler : exn -> M A) : M A :=
  fun s =>
    match m s with
    | (Ret a, s') => (Ret a, s')
    | (Raise e, s') => if catches e then handler e s' else (Raise e, s')
    end.

(** [for x in l: body x] *)
Fixpoint for_each {A} (l : list A) (body : A -> M unit) : M unit :=
  match l with
  | [] => ret tt
  | x :: l' => body x ;; for_each l' body
  end.

(** [print(s)] *)
Definition print (s : str) : M unit := emit (PrintCall s [NL]).

(** [sys.exit(code)] *)
Definition sys_exit {A} (code : Z) : M A := raise (SystemExit code).

(* ===================================================================== *)
(** ** The environment *)
(* ===================================================================== *)

(** What the host and the libraries answer, fixed for one run. *)
Record host := {
  os_name : str;                                 (* [os.name] *)
  platform : str;                                (* [sys.platform] *)
  list_microphone_names : list str;
  Microphone : option nat -> res unit;           (* [sr.Microphone(...)] *)
  whisper_load_model : str -> res unit;
  adjust_for_ambient_noise : res unit;
  cuda_is_available : bool;
  (** [timedelta(seconds=x)] for a float [x]; raises on NaN and infinities. *)
  timedelta_seconds : float -> res timedelta;
  (** the text of [f"{(1 - np.mean(probs)) * 100:.1f}"] *)
  confidence_percentage : list float -> str
}.

(** What one pass of the polling loop is answered. *)
Record poll := {
  (** chunks the capture thread has enqueued since the previous pass *)
  captured : list bytes;
  now : datetime;                                (* [datetime.utcnow()] *)
  subprocess_run : res unit;
  transcribe : list Z -> bool -> res transcribe_result;
  (** the [with open(path, 'w') as f: f.write(...)] block: [Ret], or the
      exception it raises *)
  file_write : res unit;
  (** when that block raises: [None] if [open] itself failed, and
      otherwise the text that had reached the file, which [open] had
      truncated, before the failure *)
  file_after_failure : option str;
  sleep : res unit
}.

(** The parsed command line. *)
Record Namespace := {
  model : str;
  non_english : bool;
  energy_threshold : Z;
  record_timeout : float;
  phrase_timeout : float;
  output_file : option str;
  show_confidence : bool;
  default_microphone : str
}.

(* ===================================================================== *)
(** ** The functions of [transcribe_demo.py], in source order *)
(* ===================================================================== *)

(** [subprocess.run(cmd, ...)]: the call is recorded, its outcome is the
    environment's. *)
Definition run (p : poll) (cmd : list str) (shell : bool) : M unit :=
  emit (SubprocessRun cmd shell) ;; lift (subprocess_run p).

Definition clear_console (h : host) (p : poll) : M unit :=
  try_except
    (if str_eqb (os_name h) (lit "nt")
     then run p [lit "cls"] true
     else run p [lit "clear"] false)
    (except_classes [SubprocessError; FileNotFoundError])
    (fun _ => print (str_mul [NL] CONSOLE_CLEAR_FALLBACK_LINES)).

Definition validate_arguments (args : Namespace) : res unit :=
  if int_ltb0 (energy_threshold args) then
    Raise (Exn ValueError (lit "Energy threshold must be non-negative"))
  else if float_leb0 (record_timeout args) then
    Raise (Exn ValueError (lit "Record timeout must be positive"))
  else if float_leb0 (phrase_timeout args) then
    Raise (Exn ValueError (lit "Phrase timeout must be positive"))
  else Ret tt.

(** [sr.Microphone(sample_rate=SAMPLE_RATE, device_index=index)] *)
Definition new_microphone (h : host) (index : option nat) : M unit :=
  emit (OpenMicrophone index) ;; lift (Microphone h index).

(** The search loop of [get_microphone_source]: the first device whose
    name contains [mic_name] is opened. *)
Fixpoint find_microphone (h : host) (mic_name : str) (index : nat)
    (names : list str) : M unit :=
  match names with
  | [] =>
      raise (Exn ValueError
               (lit "Microphone '" ++ mic_name ++ lit "' not found"))
  | name :: rest =>
      if contains mic_name name then
        try_except (new_microphone h (Some index))
          (except_classes [OSError])
          (fun e => raise (Exn RuntimeError
                             (lit "Failed to initialize microphone '" ++ name
                              ++ lit "': " ++ exn_str e)))
      else find_microphone h mic_name (S index) rest
  end.

(** The branch of [get_microphone_source] that prints the device names
    and leaves with [sys.exit(0)]. *)
Definition list_microphones_and_exit (h : host) : M unit :=
  print (lit "Available microphone devices are: ") ;;
  emit ListMicrophoneNames ;;
  for_each (list_microphone_names h)
    (fun name => print (lit "Microphone with name " ++ [34%N] ++ name
                        ++ [34%N] ++ lit " found")) ;;
  sys_exit 0.

Definition get_microphone_source (h : host) (mic_name : option str) : M unit :=
  if contains (lit "linux") (platform h) then
    match mic_name with
    | None => list_microphones_and_exit h
    | Some name =>
        if negb (truthy name) || str_eqb name (lit "list") then
          list_microphones_and_exit h
        else
          emit ListMicrophoneNames ;;
          find_microphone h name 0 (list_microphone_names h)
    end
  else
    try_except (new_microphone h None)
      (except_classes [OSError])
      (fun e => raise (Exn RuntimeError
                         (lit "Failed to initialize default microphone: "
                          ++ exn_str e))).

(** The name handed to [whisper.load_model]. *)
Definition resolved_model_name (model_name : str) (non_english : bool) : str :=
  if negb (str_eqb model_name (lit "large")) && negb non_english
  then model_name ++ lit ".en"
  else model_name.

Definition load_whisper_model (h : host) (model_name : str)
    (non_english : bool) : M unit :=
  let model := resolved_model_name model_name non_english in
  try_except
    (emit (LogInfo (lit "Loading Whisper model: " ++ model)) ;;
     emit (LoadModel model) ;;
     lift (whisper_load_model h model) ;;
     emit (LogInfo (lit "Model loaded successfully")))
    except_Exception
    (fun e => raise (Exn RuntimeError
                       (lit "Error loading model '" ++ model ++ lit "': "
                        ++ exn_str e))).

Definition inspect {A} (a : A) : {b : A | a = b} := exist _ a eq_refl.

(** The [while not data_queue.empty()] loop of [process_audio_queue]:
    returns [audio_data_list] and the queue as the loop leaves it. *)
Equations? drain (data_queue : Queue.t) (audio_data_list : list bytes)
    : list bytes * Queue.t by wf (Queue.qsize data_queue) lt :=
  drain q acc with Queue.empty q := {
    | true := (acc, q)
    | false with inspect (Queue.get_nowait q) := {
        | exist _ (Some (item, q')) _ := drain q' (acc ++ [item])
        | exist _ None _ := (acc, q) } }.
Proof.
  destruct q as [|x q0]; simpl in *; [discriminate|].
  injection e as <- <-. unfold Queue.qsize. simpl. lia.
Qed.

Definition process_audio_queue (data_queue : Queue.t)
    : option bytes * Queue.t :=
  let (audio_data_list, q) := drain data_queue [] in
  (if truthy audio_data_list then Some (join [] audio_data_list) else None, q).

(** Two's-complement value of a 16-bit word. *)
Definition int16 (w : Z) : Z := if w <? 32768 then w else w - 65536.

(** [np.frombuffer(audio_data, dtype=np.int16)] on a little-endian host;
    [None] when the length is odd (NumPy raises [ValueError]). *)
Fixpoint frombuffer_int16 (b : bytes) : option (list Z) :=
  match b with
  | [] => Some []
  | [_] => None
  | lo :: hi :: rest =>
      match frombuffer_int16 rest with
      | Some l =>
          Some (int16 (Z.of_N (Byte.to_N lo) + 256 * Z.of_N (Byte.to_N hi)) :: l)
      | None => None
      end
  end.

(** The array returned holds the float32 values [x / 32768.0], each exact;
    it is represented by the integers [x]. *)
Definition convert_audio_to_numpy (audio_data : bytes) : res (list Z) :=
  match frombuffer_int16 audio_data with
  | Some samples => Ret samples
  | None =>
      Raise (Exn ValueError
               (lit "buffer size must be a multiple of element size"))
  end.

Definition display_transcription (h : host) (p : poll)
    (transcription : list str) : M unit :=
  clear_console h p ;;
  for_each transcription
    (fun line => if truthy (strip line) then print line else ret tt) ;;
  emit (PrintCall [] []).

(* ===================================================================== *)
(** ** [main] *)
(* ===================================================================== *)

(** ['\n'.join(line for line in transcription if line.strip())], the text
    both file writes hand to [f.write]. *)
Definition joined_lines (transcription : list str) : str :=
  join [NL] (filter (fun line => truthy (strip line)) transcription).

(** The file [path] holding [text] alone. *)
Definition store (path text : str) (s : state) : state :=
  set_files (fun q => if str_eqb q path then Some text else files s q) s.

(** [with open(path, 'w', encoding='utf-8') as f: f.write(content)]:
    mode ['w'] truncates, so on success the file holds [content] alone.
    When the block raises, the file is untouched if [open] itself failed;
    otherwise [open] has truncated it and it holds what had been written
    before the failure. *)
Definition write_file (p : poll) (path content : str) : M unit :=
  match file_write p with
  | Ret _ => modify (store path content)
  | Raise e =>
      match file_after_failure p with
      | None => raise e
      | Some partial => modify (store path partial) ;; raise e
      end
  end.

(** [if args.output_file:] *)
Definition output_path (args : Namespace) : option str :=
  match output_file args with
  | Some path => if truthy path then Some path else None
  | None => None
  end.

(** [transcription[-1] = text] *)
Definition set_last (l : list str) (text : str) : res (list str) :=
  match l with
  | [] => Raise (Exn IndexError (lit "list assignment index out of range"))
  | _ :: _ => Ret (removelast l ++ [text])
  end.

(** Lines 212-216: [phrase_complete].  The [and] does not evaluate the
    [timedelta] when [phrase_time] is [None]. *)
Definition phrase_complete (h : host) (args : Namespace)
    (phrase_time : option datetime) (now : datetime) : M bool :=
  match phrase_time with
  | None => ret false
  | Some previous =>
      gap <- lift (timedelta_seconds h (phrase_timeout args)) ;;
      ret (now - previous >? gap)
  end.

(** Lines 235-239: the text with its confidence suffix when asked for. *)
Definition with_confidence (h : host) (args : Namespace)
    (result : transcribe_result) (text : str) : str :=
  match show_confidence args, result_segments result with
  | true, Some segments =>
      let probs :=
        map (fun seg => match seg with
                        | Some x => x
                        | None => S754_zero false
                        end) segments in
      text ++ lit " [Confidence: " ++ confidence_percentage h probs ++ lit "%]"
  | _, _ => text
  end.

Definition do_sleep (p : poll) : M unit :=
  emit (Sleep SLEEP_INTERVAL) ;; lift (sleep p).

(** Line 221: [process_audio_queue(data_queue)] on the shared queue. *)
Definition drain_shared_queue : M (option bytes) :=
  fun s =>
    let (audio_data, q) := process_audio_queue (data_queue s) in
    (Ret audio_data, set_data_queue q s).

(** Lines 242-245: the text opens a new line or replaces the last one. *)
Definition update_transcription (complete : bool) (text : str) : M unit :=
  lines <- gets transcription ;;
  if complete
  then modify (set_transcription (lines ++ [text]))
  else lines' <- lift (set_last lines text) ;;
       modify (set_transcription lines').

(** Lines 251-256: the write after an update; a failure is a warning. *)
Definition save_transcription (args : Namespace) (p : poll) : M unit :=
  match output_path args with
  | Some path =>
      try_except
        (lines <- gets transcription ;;
         write_file p path (joined_lines lines))
        (except_classes [OSError])
        (fun e => emit (LogWarning (lit "Failed to write to output file: "
                                    ++ exn_str e)))
  | None => ret tt
  end.

(** Lines 232-256: what the pass does with the model's answer. *)
Definition process_result (h : host) (args : Namespace) (p : poll)
    (complete : bool) (result : transcribe_result) : M unit :=
  let text := strip (result_text result) in
  if truthy text then
    let text := with_confidence h args result text in
    update_transcription complete text ;;
    lines <- gets transcription ;;
    display_transcription h p lines ;;
    save_transcription args p
  else ret tt.

(** Lines 208-259: the body of the inner [try] of one pass. *)
Definition poll_body (h : host) (args : Namespace) (p : poll) : M unit :=
  q <- gets data_queue ;;
  if negb (Queue.empty q) then
    previous <- gets phrase_time ;;
    complete <- phrase_complete h args previous (now p) ;;
    modify (set_phrase_time (Some (now p))) ;;
    audio_data <- drain_shared_queue ;;
    match audio_data with
    | None => do_sleep p
    | Some audio_data =>
        if negb (truthy audio_data) then do_sleep p
        else
          audio_np <- lift (convert_audio_to_numpy audio_data) ;;
          emit (Transcribe audio_np (cuda_is_available h)) ;;
          result <- lift (transcribe p audio_np (cuda_is_available h)) ;;
          process_result h args p complete result
    end
  else do_sleep p.

(** How one pass ends: the [while True] goes on, or [break]. *)
Inductive control := Continue | Break.

(** Lines 207-265: one pass of the loop with its two [except] clauses. *)
Definition iteration (h : host) (args : Namespace) (p : poll) : M control :=
  fun s =>
    match poll_body h args p s with
    | (Ret _, s') => (Ret Continue, s')
    | (Raise e, s') =>
        if except_KeyboardInterrupt e then (Ret Break, s')
        else if except_Exception e then
          (emit (LogError (lit "Error during transcription: " ++ exn_str e)) ;;
           ret Continue) s'
        else (Raise e, s')
    end.

(** [record_callback]: run by the capture thread for each finished
    recording. *)
Definition record_callback (data : bytes) : M unit :=
  modify (fun s => set_data_queue (Queue.put data (data_queue s)) s).

(** How far a run has come: the loop was left, or the passes listed so far
    have all been made and the loop is still going. *)
Inductive loop_status := Left | Looping.

(** The [while True] loop over the passes [polls]; between two passes the
    capture thread enqueues the chunks of [captured]. *)
Fixpoint main_loop (h : host) (args : Namespace) (polls : list poll)
    : M loop_status :=
  match polls with
  | [] => ret Looping
  | p :: rest =>
      for_each (captured p) record_callback ;;
      c <- iteration h args p ;;
      match c with
      | Break => ret Left
      | Continue => main_loop h args rest
      end
  end.

(** Lines 277-283: the write at shutdown; a failure is an error. *)
Definition save_final_transcription (args : Namespace) (p : poll) : M unit :=
  match output_path args with
  | Some path =>
      try_except
        (lines <- gets transcription ;;
         write_file p path (joined_lines lines) ;;
         print ([NL] ++ lit "Transcription saved to: " ++ path))
        (except_classes [OSError])
        (fun e => emit (LogError (lit "Failed to save final transcription: "
                                  ++ exn_str e)))
  | None => ret tt
  end.

(** Lines 267-285: the [finally] block. *)
Definition cleanup (args : Namespace) (p : poll) : M unit :=
  emit StopListening ;;
  print ([NL; NL] ++ lit "Final Transcription:") ;;
  lines <- gets transcription ;;
  for_each lines
    (fun line => if truthy (strip line) then print line else ret tt) ;;
  save_final_transcription args p ;;
  emit (LogInfo (lit "Transcription session ended")).

(** Lines 148-203: everything [main] does before the loop. *)
Definition startup (h : host) (args : Namespace) : M unit :=
  try_except (lift (validate_arguments args))
    (except_classes [ValueError])
    (fun e => emit (LogError (lit "Argument validation failed: " ++ exn_str e)) ;;
              sys_exit 1) ;;
  modify (set_phrase_time None) ;;
  modify (set_data_queue Queue.new) ;;
  modify (set_transcription [[]]) ;;
  emit (SetEnergyThreshold (energy_threshold args)) ;;
  try_except
    (if contains (lit "linux") (platform h)
     then get_microphone_source h (Some (default_microphone args))
     else get_microphone_source h None)
    (except_classes [ValueError; RuntimeError])
    (fun e => emit (LogError (lit "Microphone initialization failed: "
                              ++ exn_str e)) ;;
              sys_exit 1) ;;
  try_except (load_whisper_model h (model args) (non_english args))
    (except_classes [RuntimeError])
    (fun e => emit (LogError (exn_str e)) ;; sys_exit 1) ;;
  try_except
    (emit (LogInfo (lit "Adjusting for ambient noise...")) ;;
     emit AdjustForAmbientNoise ;;
     lift (adjust_for_ambient_noise h) ;;
     emit (LogInfo (lit "Ambient noise adjustment complete")))
    except_Exception
    (fun e => emit (LogError (lit "Error adjusting for ambient noise: "
                              ++ exn_str e)) ;;
              sys_exit 1) ;;
  emit (ListenInBackground (record_timeout args)) ;;
  print (lit "Model loaded. Starting transcription...") ;;
  emit (LogInfo (lit "Real-time transcription started")).

(** [main], run over the passes [polls]; [final] answers the [finally]
    block.  While the loop is still going the [finally] block has not
    run. *)
Definition main (h : host) (args : Namespace) (polls : list poll)
    (final : poll) : M loop_status :=
  startup h args ;;
  fun s =>
    match main_loop h args polls s with
    | (Ret Looping, s') => (Ret Looping, s')
    | (Ret Left, s') => (cleanup args final ;; ret Left) s'
    | (Raise e, s') => (cleanup args final ;; raise e) s'
    end.

(** The state a process starts from: nothing done yet, the files as they
    are on disk. *)
Definition initial_state (disk : str -> option str) : state :=
  {| trace := []; files := disk; data_queue := Queue.new;
     phrase_time := None; transcription := [] |}.

(* ===================================================================== *)
(** ** Vocabulary of the statements *)
(* ===================================================================== *)

(** A float is non-positive when its value is at most zero: a zero of
    either sign, a negative number, or minus infinity.  NaN is not. *)
Definition float_nonpositive (x : float) : Prop :=
  match x with
  | S754_zero _ => True
  | S754_infinity negative => negative = true
  | S754_nan => False
  | S754_finite negative _ _ => negative = true
  end.

(** A configuration that validation is meant to reject. *)
Definition out_of_range (args : Namespace) : Prop :=
  energy_threshold args < 0
  \/ float_nonpositive (record_timeout args)
  \/ float_nonpositive (phrase_timeout args).

(** Events that touch the microphone, the model or the recorder. *)
Definition acquires_resource (ev : event) : bool :=
  match ev with
  | ListMicrophoneNames | OpenMicrophone _ | SetEnergyThreshold _
  | LoadModel _ | AdjustForAmbientNoise | ListenInBackground _ => true
  | _ => false
  end.

(** What one pass may do to the transcript: nothing, add one line at the
    end, or put a new text in place of the last line. *)
Definition transcript_step (l l' : list str) : Prop :=
  l' = l
  \/ (exists text, l' = l ++ [text])
  \/ (exists text, l <> [] /\ l' = removelast l ++ [text]).

Definition is_transcribe_call (ev : event) : bool :=
  match ev with
  | Transcribe _ _ => true
  | _ => false
  end.

(** A line with at least one character that is not white space. *)
Definition nonblank (line : str) : Prop :=
  exists c, In c line /\ isspace c = false.


(** A computation leaves the component [f] of the state alone. *)
Definition keeps {A B} (f : state -> B) (m : M A) : Prop :=
  forall s, f (snd (m s)) = f s.

(** A component that does not depend on the event trace. *)
Definition trace_blind {B} (f : state -> B) : Prop :=
  forall t s, f (set_trace t s) = f s.

(* ===================================================================== *)
(** ** Sample inputs *)
(* ===================================================================== *)

(** The defaults of the command line, with an output file. *)
Definition sample_args : Namespace :=
  {| model := DEFAULT_MODEL; non_english := false;
     energy_threshold := DEFAULT_ENERGY_THRESHOLD;
     record_timeout := DEFAULT_RECORD_TIMEOUT;
     phrase_timeout := DEFAULT_PHRASE_TIMEOUT;
     output_file := Some (lit "out.txt"); show_confidence := false;
     default_microphone := lit "pulse" |}.

Definition with_energy_threshold (e : Z) (args : Namespace) : Namespace :=
  {| model := model args; non_english := non_english args;
     energy_threshold := e;
     record_timeout := record_timeout args;
     phrase_timeout := phrase_timeout args;
     output_file := output_file args; show_confidence := show_confidence args;
     default_microphone := default_microphone args |}.

Definition with_record_timeout (x : float) (args : Namespace) : Namespace :=
  {| model := model args; non_english := non_english args;
     energy_threshold := energy_threshold args;
     record_timeout := x;
     phrase_timeout := phrase_timeout args;
     output_file := output_file args; show_confidence := show_confidence args;
     default_microphone := default_microphone args |}.

(** A Linux host with one device; every library call succeeds. *)
Definition sample_host : host :=
  {| os_name := lit "posix"; platform := lit "linux";
     list_microphone_names := [lit "pulse"];
     Microphone := fun _ => Ret tt;
     whisper_load_model := fun _ => Ret tt;
     adjust_for_ambient_noise := Ret tt;
     cuda_is_available := false;
     timedelta_seconds := fun _ => Ret 3000000;
     confidence_percentage := fun _ => lit "100.0" |}.

(** A pass at time [t] in which the model hears [text] and nothing fails. *)
Definition sample_poll (t : datetime) (chunks : list bytes) (text : str) : poll :=
  {| captured := chunks; now := t;
     subprocess_run := Ret tt;
     transcribe := fun _ _ =>
       Ret {| result_text := text; result_segments := None |};
     file_write := Ret tt;
     file_after_failure := None;
     sleep := Ret tt |}.

(** The same pass with a model call that fails. *)
Definition failing_poll (t : datetime) (chunks : list bytes) : poll :=
  {| captured := chunks; now := t;
     subprocess_run := Ret tt;
     transcribe := fun _ _ => Raise (Exn RuntimeError (lit "CUDA out of memory"));
     file_write := Ret tt;
     file_after_failure := None;
     sleep := Ret tt |}.


Definition empty_disk : str -> option str := fun _ => None.

(** A running program whose transcript is [lines] and whose output file
    already holds some text. *)
Definition sample_state (lines : list str) (queue : Queue.t)
    (previous : option datetime) : state :=
  {| trace := []; files := fun _ => Some (lit "older text");
     data_queue := queue; phrase_time := previous; transcription := lines |}.

(* ===================================================================== *)
(** ** Further vocabulary *)
(* ===================================================================== *)

(** Every event a computation adds to the trace satisfies [P]. *)
Definition emits_only {A} (P : event -> bool) (m : M A) : Prop :=
  forall s, exists events,
    trace (snd (m s)) = trace s ++ events /\ forallb P events = true.



(** The events a pass of the loop can produce. *)
Definition pass_event (ev : event) : bool :=
  match ev with
  | Sleep _ | Transcribe _ _ | SubprocessRun _ _ | PrintCall _ _
  | LogWarning _ | LogError _ => true
  | _ => false
  end.

(** One [print] call per non-blank line. *)
Definition printed_lines (lines : list str) : list event :=
  map (fun line => PrintCall line [NL])
      (filter (fun line => truthy (strip line)) lines).

(** The [subprocess.run] call of [clear_console]. *)
Definition clear_command (h : host) : event :=
  if str_eqb (os_name h) (lit "nt")
  then SubprocessRun [lit "cls"] true
  else SubprocessRun [lit "clear"] false.

(** What [display_transcription] adds to the trace when the screen clears. *)
Definition display_events (h : host) (lines : list str) : list event :=
  clear_command h :: printed_lines lines ++ [PrintCall [] []].

(** The locals of [main] as lines 156-158 set them. *)
Definition started (s : state) : state :=
  set_transcription [[]] (set_data_queue Queue.new (set_phrase_time None s)).

(** The state of a pass that has found audio, once the queue is drained. *)
Definition drained (p : poll) (s : state) : state :=
  set_data_queue Queue.new (set_phrase_time (Some (now p)) s).

(** Lines 166-170 of [main]: the call of [get_microphone_source]. *)
Definition microphone_stage (h : host) (args : Namespace) : M unit :=
  if contains (lit "linux") (platform h)
  then get_microphone_source h (Some (default_microphone args))
  else get_microphone_source h None.


(** The disk after a write block has raised. *)
Definition after_failed_write (p : poll) (path : str) (s : state) : state :=
  match file_after_failure p with
  | None => s
  | Some partial => store path partial s
  end.

(** The configurations that pass a timeout check: a positive number, plus
    infinity, or NaN. *)
Definition passes_timeout_check (x : float) : Prop :=
  match x with
  | S754_zero _ => False
  | S754_infinity negative => negative = false
  | S754_nan => True
  | S754_finite negative _ _ => negative = false
  end.

(** A transcript whose lines are non-blank, except that the first may
    still be the empty placeholder. *)
Definition well_formed_transcript (l : list str) : Prop :=
  exists first rest,
    l = first :: rest /\ (first = [] \/ nonblank first) /\ Forall nonblank rest.

(** A 16-bit sample. *)
Definition is_int16 (x : Z) : Prop := -32768 <= x < 32768.

(** A host that is not Linux. *)
Definition mac_host : host :=
  {| os_name := lit "posix"; platform := lit "darwin";
     list_microphone_names := [lit "Built-in Microphone"];
     Microphone := fun _ => Ret tt;
     whisper_load_model := fun _ => Ret tt;
     adjust_for_ambient_noise := Ret tt;
     cuda_is_available := false;
     timedelta_seconds := fun _ => Ret 3000000;
     confidence_percentage := fun _ => lit "100.0" |}.

(** A Linux host with three devices, the second and third matching "usb";
    [open_result] answers every [sr.Microphone] call. *)
Definition usb_host (open_result : res unit) : host :=
  {| os_name := lit "posix"; platform := lit "linux";
     list_microphone_names :=
       [lit "HDA Intel"; lit "usb headset"; lit "usb webcam"];
     Microphone := fun _ => open_result;
     whisper_load_model := fun _ => Ret tt;
     adjust_for_ambient_noise := Ret tt;
     cuda_is_available := false;
     timedelta_seconds := fun _ => Ret 3000000;
     confidence_percentage := fun _ => lit "100.0" |}.

(** A host on which the model cannot be loaded. *)
Definition no_model_host : host :=
  {| os_name := lit "posix"; platform := lit "darwin";
     list_microphone_names := [];
     Microphone := fun _ => Ret tt;
     whisper_load_model := fun _ => Raise (Exn OSError (lit "no space left"));
     adjust_for_ambient_noise := Ret tt;
     cuda_is_available := false;
     timedelta_seconds := fun _ => Ret 3000000;
     confidence_percentage := fun _ => lit "100.0" |}.

(** A host on which [timedelta] cannot be built from the phrase timeout. *)
Definition nan_host : host :=
  {| os_name := lit "posix"; platform := lit "darwin";
     list_microphone_names := [];
     Microphone := fun _ => Ret tt;
     whisper_load_model := fun _ => Ret tt;
     adjust_for_ambient_noise := Ret tt;
     cuda_is_available := false;
     timedelta_seconds := fun _ =>
       Raise (Exn ValueError (lit "cannot convert float NaN to integer"));
     confidence_percentage := fun _ => lit "100.0" |}.

Definition with_default_microphone (name : str) (args : Namespace) : Namespace :=
  {| model := model args; non_english := non_english args;
     energy_threshold := energy_threshold args;
     record_timeout := record_timeout args;
     phrase_timeout := phrase_timeout args;
     output_file := output_file args; show_confidence := show_confidence args;
     default_microphone := name |}.

Definition with_phrase_timeout (x : float) (args : Namespace) : Namespace :=
  {| model := model args; non_english := non_english args;
     energy_threshold := energy_threshold args;
     record_timeout := record_timeout args;
     phrase_timeout := x;
     output_file := output_file args; show_confidence := show_confidence args;
     default_microphone := default_microphone args |}.

Definition with_output_file (path : option str) (args : Namespace) : Namespace :=
  {| model := model args; non_english := non_english args;
     energy_threshold := energy_threshold args;
     record_timeout := record_timeout args;
     phrase_timeout := phrase_timeout args;
     output_file := path; show_confidence := show_confidence args;
     default_microphone := default_microphone args |}.

(** A pass answered like [sample_poll], except for the file write, the
    screen clear and the sleep. *)
Definition poll_with (t : datetime) (text : str) (clear write slept : res unit)
    : poll :=
  {| captured := []; now := t;
     subprocess_run := clear;
     transcribe := fun _ _ =>
       Ret {| result_text := text; result_segments := None |};
     file_write := write;
     file_after_failure := None;
     sleep := slept |}.

(** A pass like [sample_poll] whose file write raises [e], the file
    being left as [after] says. *)
Definition poll_write_fails (t : datetime) (text : str) (e : exn)
    (after : option str) : poll :=
  {| captured := []; now := t;
     subprocess_run := Ret tt;
     transcribe := fun _ _ =>
       Ret {| result_text := text; result_segments := None |};
     file_write := Raise e;
     file_after_failure := after;
     sleep := Ret tt |}.

(* ===================================================================== *)
(** ** Strings *)
(* ===================================================================== *)

Lemma str_eqb_refl (a : str) : str_eqb a a = true.
Proof.
  induction a as [|x a IH]; simpl; [reflexivity|].
  rewrite N.eqb_refl. exact IH.
Qed.

Lemma str_eqb_eq (a b : str) : str_eqb a b = true <-> a = b.
Proof.
  split; [|intros ->; apply str_eqb_refl].
  revert b. induction a as [|x a IH]; intros [|y b]; simpl; try discriminate.
  - reflexivity.
  - intros H. apply andb_true_iff in H as [Hx Hab].
    apply N.eqb_eq in Hx. f_equal; auto.
Qed.

Lemma str_eqb_neq (a b : str) : str_eqb a b = false <-> a <> b.
Proof.
  split.
  - intros H E. apply str_eqb_eq in E. congruence.
  - intros H. destruct (str_eqb a b) eqn:E; [|reflexivity].
    apply str_eqb_eq in E. contradiction.
Qed.

Lemma startswith_app (p s : str) : startswith p (p ++ s) = true.
Proof.
  induction p as [|x p IH]; simpl; [reflexivity|].
  rewrite N.eqb_refl. exact IH.
Qed.

Lemma contains_app (sub pre post : str) :
  contains sub (pre ++ sub ++ post) = true.
Proof.
  induction pre as [|x pre IH]; simpl.
  - destruct (sub ++ post) eqn:E; simpl; rewrite <- ?E, startswith_app;
      reflexivity.
  - rewrite IH. apply orb_true_r.
Qed.

Lemma contains_refl (s : str) : contains s s = true.
Proof.
  rewrite <- (app_nil_r s) at 2. apply (contains_app s [] []).
Qed.

Lemma lstrip_nil_iff (s : str) : lstrip s = [] <-> forallb isspace s = true.
Proof.
  induction s as [|c s IH]; simpl; [tauto|].
  destruct (isspace c); simpl; [exact IH|].
  split; discriminate.
Qed.

Lemma lstrip_head (s : str) (c : char) (r : str) :
  lstrip s = c :: r -> isspace c = false.
Proof.
  induction s as [|d s IH]; simpl; [discriminate|].
  destruct (isspace d) eqn:Ed; [exact IH|].
  intros H. injection H as <- <-. exact Ed.
Qed.

Lemma forallb_rev {A} (f : A -> bool) (l : list A) :
  forallb f (rev l) = forallb f l.
Proof.
  induction l as [|x l IH]; [reflexivity|].
  simpl. rewrite forallb_app, IH. simpl.
  rewrite andb_true_r. apply andb_comm.
Qed.

Lemma strip_nil_iff (s : str) : strip s = [] <-> forallb isspace s = true.
Proof.
  unfold strip, rstrip. split.
  - intros H.
    assert (H1 : lstrip (rev (lstrip s)) = []).
    { destruct (lstrip (rev (lstrip s))) as [|c r]; [reflexivity|].
      simpl in H. destruct (rev r); discriminate. }
    apply lstrip_nil_iff in H1. rewrite forallb_rev in H1.
    destruct (lstrip s) as [|c r] eqn:E.
    + apply lstrip_nil_iff. exact E.
    + apply lstrip_head in E. simpl in H1. rewrite E in H1. discriminate.
  - intros H. apply lstrip_nil_iff in H. rewrite H. reflexivity.
Qed.

Lemma truthy_strip_nonblank (line : str) :
  truthy (strip line) = true <-> nonblank line.
Proof.
  unfold nonblank. split.
  - intros H. destruct (forallb isspace line) eqn:E.
    + apply strip_nil_iff in E. rewrite E in H. discriminate.
    + clear H. induction line as [|c l IH]; simpl in E; [discriminate|].
      destruct (isspace c) eqn:Ec.
      * destruct (IH E) as [d [Hd Hs]]. exists d. split; [right|]; assumption.
      * exists c. split; [left; reflexivity|assumption].
  - intros [c [Hin Hc]].
    destruct (strip line) eqn:E; [|reflexivity].
    apply strip_nil_iff in E. rewrite forallb_forall in E.
    rewrite (E c Hin) in Hc. discriminate.
Qed.

Lemma join_nil_sep {A} (parts : list (list A)) :
  join [] parts = List.concat parts.
Proof.
  induction parts as [|p rest IH]; [reflexivity|].
  destruct rest as [|p' rest'].
  - simpl. rewrite app_nil_r. reflexivity.
  - change (p ++ [] ++ join [] (p' :: rest') = p ++ List.concat (p' :: rest')).
    rewrite IH. reflexivity.
Qed.

(* ===================================================================== *)
(** ** The queue drain *)
(* ===================================================================== *)

Lemma put_all_app (items : list bytes) (q : Queue.t) :
  Queue.put_all items q = q ++ items.
Proof.
  revert q. induction items as [|x items IH]; intros q; simpl.
  - rewrite app_nil_r. reflexivity.
  - unfold Queue.put_all in IH. rewrite IH. unfold Queue.put.
    rewrite <- app_assoc. reflexivity.
Qed.

(** The loop takes every chunk, oldest first, and stops on the empty
    queue. *)
Lemma drain_all (q : Queue.t) (acc : list bytes) : drain q acc = (acc ++ q, []).
Proof.
  revert acc. induction q as [|x q IH]; intros acc; simp drain; simpl.
  - rewrite app_nil_r. reflexivity.
  - rewrite IH, <- app_assoc. reflexivity.
Qed.

Lemma process_audio_queue_eq (q : Queue.t) :
  process_audio_queue q =
  (match q with
   | [] => None
   | _ :: _ => Some (List.concat q)
   end, Queue.new).
Proof.
  unfold process_audio_queue. rewrite drain_all. simpl.
  destruct q; [reflexivity|]. simpl truthy. rewrite join_nil_sep. reflexivity.
Qed.

(** C2. For every sequence of chunks pushed to the queue, one call of
    [process_audio_queue] returns the chunks concatenated in push order
    and leaves the queue empty; on an empty queue it returns [None] and not
    an empty buffer.  Pushing b"AA" then b"BB" yields b"AABB", and the next
    call, nothing pushed in between, yields [None]. *)
Theorem process_audio_queue_fifo :
  (forall chunks : list bytes,
     let q := Queue.put_all chunks Queue.new in
     fst (process_audio_queue q) =
       match chunks with
       | [] => None
       | _ :: _ => Some (List.concat chunks)
       end
     /\ Queue.empty (snd (process_audio_queue q)) = true)
  /\ fst (process_audio_queue Queue.new) = None
  /\ fst (process_audio_queue Queue.new) <> Some []
  /\ (let q := Queue.put [x42; x42] (Queue.put [x41; x41] Queue.new) in
      fst (process_audio_queue q) = Some [x41; x41; x42; x42]
      /\ fst (process_audio_queue (snd (process_audio_queue q))) = None).
Proof.
  split; [|split; [|split; [|split]]].
  - intros chunks q. subst q. rewrite put_all_app. simpl.
    rewrite process_audio_queue_eq. split; reflexivity.
  - rewrite process_audio_queue_eq. reflexivity.
  - rewrite process_audio_queue_eq. discriminate.
  - rewrite process_audio_queue_eq. reflexivity.
  - rewrite !process_audio_queue_eq. reflexivity.
Qed.

(** C10. [process_audio_queue] returns [None] exactly when the loop has
    drained no chunk; a queue of one or more chunks that are all empty
    gives the empty buffer b"", not [None]. *)
Theorem process_audio_queue_none_iff (q : Queue.t) :
  (fst (process_audio_queue q) = None <-> fst (drain q []) = [])
  /\ (fst (process_audio_queue q) = None <-> q = [])
  /\ (q <> [] -> Forall (fun chunk => chunk = []) q ->
      fst (process_audio_queue q) = Some []).
Proof.
  rewrite process_audio_queue_eq, drain_all. simpl.
  split; [|split].
  - destruct q; split; intros H; try discriminate; reflexivity.
  - destruct q; split; intros H; try discriminate; reflexivity.
  - intros Hne Hall. destruct q as [|c q]; [contradiction|].
    f_equal. clear Hne. induction Hall as [|x l Hx _ IH]; [reflexivity|].
    subst x. simpl. exact IH.
Qed.

Lemma process_audio_queue_none_iff_witness :
  [[]; []] <> ([] : Queue.t)
  /\ fst (process_audio_queue [[]; []]) = Some [].
Proof.
  assert (Hne : [[]; []] <> ([] : Queue.t)) by discriminate.
  split; [exact Hne|].
  apply (proj2 (proj2 (process_audio_queue_none_iff [[]; []])) Hne).
  repeat constructor.
Defined.

(* ===================================================================== *)
(** ** Argument validation *)
(* ===================================================================== *)

Lemma float_leb0_nonpositive (x : float) :
  float_leb0 x = true <-> float_nonpositive x.
Proof.
  unfold float_leb0, SFleb, SFcompare.
  destruct x as [s|s| |s m e]; simpl; try destruct s; simpl;
    split; intros H; try reflexivity; try exact I; try discriminate;
    try contradiction.
Qed.

Lemma validate_arguments_raises_iff (args : Namespace) :
  (exists e, validate_arguments args = Raise e) <-> out_of_range args.
Proof.
  unfold validate_arguments, out_of_range, int_ltb0.
  destruct (Z.ltb_spec (energy_threshold args) 0) as [He|He].
  { split; [intros _; left; exact He|intros _; eexists; reflexivity]. }
  destruct (float_leb0 (record_timeout args)) eqn:Hr.
  { apply float_leb0_nonpositive in Hr.
    split; [intros _; right; left; exact Hr|intros _; eexists; reflexivity]. }
  destruct (float_leb0 (phrase_timeout args)) eqn:Hp.
  { apply float_leb0_nonpositive in Hp.
    split; [intros _; right; right; exact Hp|intros _; eexists; reflexivity]. }
  split.
  - intros [e H]. discriminate.
  - intros [H|[H|H]].
    + lia.
    + apply float_leb0_nonpositive in H. congruence.
    + apply float_leb0_nonpositive in H. congruence.
Qed.

Lemma validate_arguments_value_error (args : Namespace) (e : exn) :
  validate_arguments args = Raise e -> exists msg, e = Exn ValueError msg.
Proof.
  unfold validate_arguments.
  destruct (int_ltb0 _); [intros [= <-]; eexists; reflexivity|].
  destruct (float_leb0 _); [intros [= <-]; eexists; reflexivity|].
  destruct (float_leb0 _); [intros [= <-]; eexists; reflexivity|].
  discriminate.
Qed.

(** C3. [validate_arguments] raises exactly when the energy threshold is
    negative or one of the two timeouts is non-positive, and otherwise
    returns normally.  With an energy threshold of -1 the [ValueError]
    says "Energy threshold must be non-negative"; with a record timeout of
    zero (the energy threshold having passed its own check, which comes
    first) it says "Record timeout must be positive". *)
Theorem validate_arguments_spec (args : Namespace) :
  ((exists e, validate_arguments args = Raise e) <-> out_of_range args)
  /\ (validate_arguments args = Ret tt <-> ~ out_of_range args)
  /\ (energy_threshold args = -1 ->
      exists msg,
        validate_arguments args = Raise (Exn ValueError msg)
        /\ contains (lit "Energy threshold must be non-negative") msg = true)
  /\ (0 <= energy_threshold args ->
      (exists sign, record_timeout args = S754_zero sign) ->
      exists msg,
        validate_arguments args = Raise (Exn ValueError msg)
        /\ contains (lit "Record timeout must be positive") msg = true).
Proof.
  split; [apply validate_arguments_raises_iff|].
  split; [|split].
  - rewrite <- validate_arguments_raises_iff. split.
    + intros H [e He]. congruence.
    + intros H. destruct (validate_arguments args) as [[]|e] eqn:E;
        [reflexivity|]. exfalso. apply H. exists e. reflexivity.
  - intros He. unfold validate_arguments, int_ltb0. rewrite He. simpl.
    eexists. split; [reflexivity|]. apply contains_refl.
  - intros He [sign Hr]. unfold validate_arguments, int_ltb0.
    destruct (Z.ltb_spec (energy_threshold args) 0) as [Hlt|_]; [lia|].
    rewrite Hr. simpl. eexists. split; [reflexivity|]. apply contains_refl.
Qed.

(* ===================================================================== *)
(** ** The monad *)
(* ===================================================================== *)

Lemma bind_ret_eq {A B} (m : M A) (k : A -> M B) (s s' : state) (a : A) :
  m s = (Ret a, s') -> bind m k s = k a s'.
Proof. intros H. unfold bind. rewrite H. reflexivity. Qed.

Lemma bind_raise_eq {A B} (m : M A) (k : A -> M B) (s s' : state) (e : exn) :
  m s = (Raise e, s') -> bind m k s = (Raise e, s').
Proof. intros H. unfold bind. rewrite H. reflexivity. Qed.

Lemma bind_ret_inv {A B} (m : M A) (k : A -> M B) (s s1 : state) (b : B) :
  bind m k s = (Ret b, s1) ->
  exists a s', m s = (Ret a, s') /\ k a s' = (Ret b, s1).
Proof.
  unfold bind. destruct (m s) as [[a|e] s'].
  - intros H. exists a, s'. split; [reflexivity|exact H].
  - discriminate.
Qed.

Create HintDb keeps.

Section Keeps.
Context {B : Type} (f : state -> B).

Lemma keeps_ret {A} (a : A) : keeps f (ret a).
Proof. intros s. reflexivity. Qed.

Lemma keeps_raise {A} (e : exn) : keeps f (@raise A e).
Proof. intros s. reflexivity. Qed.

Lemma keeps_lift {A} (r : res A) : keeps f (lift r).
Proof. intros s. reflexivity. Qed.

Lemma keeps_gets {A} (g : state -> A) : keeps f (gets g).
Proof. intros s. reflexivity. Qed.

Lemma keeps_bind {A C} (m : M A) (k : A -> M C) :
  keeps f m -> (forall a, keeps f (k a)) -> keeps f (bind m k).
Proof.
  intros Hm Hk s. unfold bind. specialize (Hm s).
  destruct (m s) as [[a|e] s']; simpl in *.
  - rewrite Hk. exact Hm.
  - exact Hm.
Qed.

Lemma keeps_try_except {A} (m : M A) (catches : exn -> bool)
    (handler : exn -> M A) :
  keeps f m -> (forall e, keeps f (handler e)) ->
  keeps f (try_except m catches handler).
Proof.
  intros Hm Hh s. unfold try_except. specialize (Hm s).
  destruct (m s) as [[a|e] s']; simpl in *; [exact Hm|].
  destruct (catches e); simpl; [|exact Hm].
  rewrite Hh. exact Hm.
Qed.

Lemma keeps_for_each {A} (l : list A) (body : A -> M unit) :
  (forall x, keeps f (body x)) -> keeps f (for_each l body).
Proof.
  intros Hb. induction l as [|x l IH]; simpl.
  - apply keeps_ret.
  - apply keeps_bind; [apply Hb|intros _; exact IH].
Qed.

Lemma keeps_if {A} (b : bool) (m1 m2 : M A) :
  keeps f m1 -> keeps f m2 -> keeps f (if b then m1 else m2).
Proof. destruct b; auto. Qed.

Lemma keeps_modify (g : state -> state) :
  (forall s, f (g s) = f s) -> keeps f (modify g).
Proof. intros H s. simpl. apply H. Qed.

Hypothesis f_trace_blind : trace_blind f.

Lemma keeps_emit (ev : event) : keeps f (emit ev).
Proof. intros s. simpl. apply f_trace_blind. Qed.

Lemma keeps_print (s : str) : keeps f (print s).
Proof. apply keeps_emit. Qed.

Lemma keeps_sys_exit {A} (code : Z) : keeps f (@sys_exit A code).
Proof. apply keeps_raise. Qed.

Lemma keeps_run (p : poll) (cmd : list str) (shell : bool) :
  keeps f (run p cmd shell).
Proof.
  apply keeps_bind; [apply keeps_emit|intros _; apply keeps_lift].
Qed.

Lemma keeps_clear_console (h : host) (p : poll) :
  keeps f (clear_console h p).
Proof.
  apply keeps_try_except.
  - apply keeps_if; apply keeps_run.
  - intros _. apply keeps_print.
Qed.

Lemma keeps_print_lines (lines : list str) :
  keeps f (for_each lines
             (fun line => if truthy (strip line) then print line else ret tt)).
Proof.
  apply keeps_for_each. intros line.
  apply keeps_if; [apply keeps_print|apply keeps_ret].
Qed.

Lemma keeps_display_transcription (h : host) (p : poll) (lines : list str) :
  keeps f (display_transcription h p lines).
Proof.
  apply keeps_bind; [apply keeps_clear_console|intros _].
  apply keeps_bind; [apply keeps_print_lines|intros _].
  apply keeps_emit.
Qed.

Lemma keeps_do_sleep (p : poll) : keeps f (do_sleep p).
Proof.
  apply keeps_bind; [apply keeps_emit|intros _; apply keeps_lift].
Qed.

Lemma keeps_new_microphone (h : host) (index : option nat) :
  keeps f (new_microphone h index).
Proof.
  apply keeps_bind; [apply keeps_emit|intros _; apply keeps_lift].
Qed.

Lemma keeps_find_microphone (h : host) (mic_name : str) (index : nat)
    (names : list str) :
  keeps f (find_microphone h mic_name index names).
Proof.
  revert index. induction names as [|name rest IH]; intros index; simpl.
  - apply keeps_raise.
  - apply keeps_if; [|apply IH].
    apply keeps_try_except; [apply keeps_new_microphone|].
    intros e. apply keeps_raise.
Qed.

Lemma keeps_list_microphones_and_exit (h : host) :
  keeps f (list_microphones_and_exit h).
Proof.
  apply keeps_bind; [apply keeps_print|intros _].
  apply keeps_bind; [apply keeps_emit|intros _].
  apply keeps_bind; [|intros _; apply keeps_sys_exit].
  apply keeps_for_each. intros name. apply keeps_print.
Qed.

Lemma keeps_get_microphone_source (h : host) (mic_name : option str) :
  keeps f (get_microphone_source h mic_name).
Proof.
  unfold get_microphone_source. apply keeps_if.
  - destruct mic_name as [name|];
      [|apply keeps_list_microphones_and_exit].
    apply keeps_if; [apply keeps_list_microphones_and_exit|].
    apply keeps_bind; [apply keeps_emit|intros _].
    apply keeps_find_microphone.
  - apply keeps_try_except; [apply keeps_new_microphone|].
    intros e. apply keeps_raise.
Qed.

Lemma keeps_load_whisper_model (h : host) (name : str) (non_english : bool) :
  keeps f (load_whisper_model h name non_english).
Proof.
  apply keeps_try_except; [|intros e; apply keeps_raise].
  apply keeps_bind; [apply keeps_emit|intros _].
  apply keeps_bind; [apply keeps_emit|intros _].
  apply keeps_bind; [apply keeps_lift|intros _].
  apply keeps_emit.
Qed.

Lemma keeps_phrase_complete (h : host) (args : Namespace)
    (previous : option datetime) (t : datetime) :
  keeps f (phrase_complete h args previous t).
Proof.
  destruct previous as [prev|]; simpl; [|apply keeps_ret].
  apply keeps_bind; [apply keeps_lift|intros gap; apply keeps_ret].
Qed.
End Keeps.

#[global] Hint Resolve keeps_ret keeps_raise keeps_lift keeps_gets keeps_bind
  keeps_try_except keeps_for_each keeps_if keeps_emit keeps_print
  keeps_sys_exit keeps_run keeps_clear_console keeps_print_lines
  keeps_display_transcription keeps_do_sleep keeps_get_microphone_source
  keeps_load_whisper_model keeps_phrase_complete : keeps.

Lemma trace_blind_transcription : trace_blind transcription.
Proof. intros t s. reflexivity. Qed.

Lemma trace_blind_data_queue : trace_blind data_queue.
Proof. intros t s. reflexivity. Qed.

Lemma trace_blind_phrase_time : trace_blind phrase_time.
Proof. intros t s. reflexivity. Qed.

Lemma trace_blind_files : trace_blind files.
Proof. intros t s. reflexivity. Qed.

#[global] Hint Resolve trace_blind_transcription trace_blind_data_queue
  trace_blind_phrase_time trace_blind_files : keeps.

Lemma validate_arguments_spec_witness :
  (exists msg,
     validate_arguments (with_energy_threshold (-1) sample_args)
       = Raise (Exn ValueError msg)
     /\ contains (lit "Energy threshold must be non-negative") msg = true)
  /\ (exists msg,
        validate_arguments (with_record_timeout (S754_zero false) sample_args)
          = Raise (Exn ValueError msg)
        /\ contains (lit "Record timeout must be positive") msg = true).
Proof.
  split.
  - apply (proj1 (proj2 (proj2
      (validate_arguments_spec (with_energy_threshold (-1) sample_args))))).
    reflexivity.
  - apply (proj2 (proj2 (proj2
      (validate_arguments_spec
         (with_record_timeout (S754_zero false) sample_args))))).
    + vm_compute. discriminate.
    + exists false. reflexivity.
Defined.

(* ===================================================================== *)
(** ** Console and model loading *)
(* ===================================================================== *)

Lemma str_mul_char (c : char) (n : nat) : str_mul [c] n = repeat c n.
Proof.
  unfold str_mul. induction n as [|n IH]; [reflexivity|].
  simpl. rewrite IH. reflexivity.
Qed.




(** C9. [load_whisper_model] asks the library for the model name with
    ".en" appended when the name is not "large" and [non_english] is false,
    and for the name unchanged when the name is "large" or [non_english] is
    true. *)
Theorem load_whisper_model_name (h : host) (model_name : str)
    (non_english : bool) (s : state) :
  exists loaded rest,
    trace (snd (load_whisper_model h model_name non_english s))
      = trace s ++ LogInfo (lit "Loading Whisper model: " ++ loaded)
                   :: LoadModel loaded :: rest
    /\ (model_name <> lit "large" /\ non_english = false ->
        loaded = model_name ++ lit ".en")
    /\ (model_name = lit "large" \/ non_english = true ->
        loaded = model_name).
Proof.
  exists (resolved_model_name model_name non_english).
  assert (Hname :
    (model_name <> lit "large" /\ non_english = false ->
     resolved_model_name model_name non_english = model_name ++ lit ".en")
    /\ (model_name = lit "large" \/ non_english = true ->
        resolved_model_name model_name non_english = model_name)).
  { unfold resolved_model_name. split.
    - intros [Hn ->]. apply str_eqb_neq in Hn. rewrite Hn. reflexivity.
    - intros [->| ->].
      + rewrite str_eqb_refl. reflexivity.
      + rewrite andb_false_r. reflexivity. }
  unfold load_whisper_model, try_except, bind, emit, modify, lift, raise.
  simpl.
  destruct (whisper_load_model h (resolved_model_name model_name non_english))
    as [[]|e]; simpl.
  - eexists. split; [|exact Hname].
    rewrite <- !app_assoc. reflexivity.
  - destruct (except_Exception e); simpl;
      (eexists; split; [|exact Hname]);
      rewrite <- !app_assoc; simpl; rewrite ?app_nil_r; reflexivity.
Qed.

Lemma load_whisper_model_name_witness :
  exists loaded rest,
    trace (snd (load_whisper_model sample_host (lit "medium") false
                  (initial_state empty_disk)))
      = LogInfo (lit "Loading Whisper model: " ++ loaded)
          :: LoadModel loaded :: rest
    /\ loaded = lit "medium.en".
Proof.
  destruct (load_whisper_model_name sample_host (lit "medium") false
              (initial_state empty_disk)) as [loaded [rest [H [Hen _]]]].
  exists loaded, rest. split; [exact H|].
  apply Hen. split; [|reflexivity].
  vm_compute. discriminate.
Defined.

(* ===================================================================== *)
(** ** Start-up *)
(* ===================================================================== *)

Lemma startup_rejects (h : host) (args : Namespace) (s : state) (msg : str) :
  validate_arguments args = Raise (Exn ValueError msg) ->
  startup h args s
  = (Raise (SystemExit 1),
     set_trace (trace s ++ [LogError (lit "Argument validation failed: " ++ msg)])
       s).
Proof.
  intros Hv. unfold startup. apply bind_raise_eq.
  unfold try_except, lift. rewrite Hv. reflexivity.
Qed.

(** C4. With a negative energy threshold or a non-positive record or
    phrase timeout, [main] stops at validation: the only thing it has done
    is log the validation error; no microphone is listed or opened, no
    model is loaded, no recording is started, no file is written, and the
    process ends through [sys.exit(1)]. *)
Theorem invalid_configuration_exits_first (h : host) (args : Namespace)
    (polls : list poll) (final : poll) (s : state) :
  out_of_range args ->
  exists msg events,
    validate_arguments args = Raise (Exn ValueError msg)
    /\ events = [LogError (lit "Argument validation failed: " ++ msg)]
    /\ main h args polls final s
       = (Raise (SystemExit 1), set_trace (trace s ++ events) s)
    /\ existsb acquires_resource events = false.
Proof.
  intros Hbad. apply validate_arguments_raises_iff in Hbad as [e He].
  destruct (validate_arguments_value_error args e He) as [msg ->].
  exists msg, [LogError (lit "Argument validation failed: " ++ msg)].
  split; [exact He|]. split; [reflexivity|]. split; [|reflexivity].
  unfold main. apply bind_raise_eq. apply startup_rejects. exact He.
Qed.

Lemma invalid_configuration_exits_first_witness :
  exists msg events,
    validate_arguments (with_energy_threshold (-5) sample_args)
      = Raise (Exn ValueError msg)
    /\ events = [LogError (lit "Argument validation failed: " ++ msg)]
    /\ main sample_host (with_energy_threshold (-5) sample_args)
         [sample_poll 0 [[x01; x00]] (lit "hello")] (sample_poll 1 [] [])
         (initial_state empty_disk)
       = (Raise (SystemExit 1),
          set_trace (trace (initial_state empty_disk) ++ events)
            (initial_state empty_disk))
    /\ existsb acquires_resource events = false.
Proof.
  apply invalid_configuration_exits_first.
  left. vm_compute. reflexivity.
Defined.

(* ===================================================================== *)
(** ** The file sink *)
(* ===================================================================== *)

Lemma set_trace_same (s : state) : set_trace (trace s) s = s.
Proof. destruct s. reflexivity. Qed.

(** The loop that prints the transcript prints its non-blank lines, one
    [print] call each, and does nothing else. *)
Lemma print_lines_eq (lines : list str) (s : state) :
  for_each lines
    (fun line => if truthy (strip line) then print line else ret tt) s
  = (Ret tt,
     set_trace (trace s ++ map (fun line => PrintCall line [NL])
                             (filter (fun line => truthy (strip line)) lines))
       s).
Proof.
  revert s. induction lines as [|line lines IH]; intros s; simpl.
  - rewrite app_nil_r, set_trace_same. reflexivity.
  - unfold bind. destruct (truthy (strip line)); simpl.
    + rewrite IH. simpl. rewrite <- app_assoc. reflexivity.
    + rewrite IH. reflexivity.
Qed.

Lemma write_file_ok (p : poll) (path content : str) (s : state) :
  file_write p = Ret tt ->
  write_file p path content s
  = (Ret tt,
     set_files (fun q => if str_eqb q path then Some content else files s q) s).
Proof.
  intros Hw. unfold write_file. rewrite Hw. reflexivity.
Qed.

Lemma save_transcription_ok (args : Namespace) (p : poll) (s : state)
    (path : str) :
  output_path args = Some path -> file_write p = Ret tt ->
  save_transcription args p s
  = (Ret tt,
     set_files (fun q => if str_eqb q path
                         then Some (joined_lines (transcription s))
                         else files s q) s).
Proof.
  intros Hp Hw. unfold save_transcription. rewrite Hp.
  unfold try_except, bind, gets. rewrite (write_file_ok _ _ _ _ Hw).
  reflexivity.
Qed.

Lemma save_final_transcription_files (args : Namespace) (p : poll) (s : state)
    (path : str) :
  output_path args = Some path -> file_write p = Ret tt ->
  files (snd (save_final_transcription args p s))
  = fun q => if str_eqb q path
             then Some (joined_lines (transcription s))
             else files s q.
Proof.
  intros Hp Hw. unfold save_final_transcription. rewrite Hp.
  unfold try_except, bind, gets. rewrite (write_file_ok _ _ _ _ Hw).
  reflexivity.
Qed.

Lemma save_final_transcription_keeps_transcription (args : Namespace)
    (p : poll) : keeps transcription (save_final_transcription args p).
Proof.
  unfold save_final_transcription. destruct (output_path args) as [path|];
    [|apply keeps_ret].
  apply keeps_try_except.
  - apply keeps_bind; [apply keeps_gets|intros lines].
    apply keeps_bind; [|intros _; apply keeps_print; auto with keeps].
    unfold write_file. destruct (file_write p) as [[]|e];
      [apply keeps_modify; reflexivity|].
    destruct (file_after_failure p) as [partial|]; [|apply keeps_raise].
    apply keeps_bind; [apply keeps_modify; reflexivity|].
    intros _. apply keeps_raise.
  - intros e. apply keeps_emit. auto with keeps.
Qed.

(** C5. The text written to the output file is the non-blank lines of the
    transcript, in order, joined by newline characters; the lines
    ["", "hello", "world"] give "hello\nworld".  A successful write leaves
    the file holding that text alone, whatever it held before, both for
    the write that follows an update and for the write of the [finally]
    block. *)
Theorem file_sink_overwrites :
  (forall lines : list str,
     exists keep : str -> bool,
       (forall line, keep line = true <-> nonblank line)
       /\ joined_lines lines = join [NL] (filter keep lines))
  /\ joined_lines [lit ""; lit "hello"; lit "world"]
     = lit "hello" ++ [NL] ++ lit "world"
  /\ (forall args p s path,
        output_path args = Some path -> file_write p = Ret tt ->
        files (snd (save_transcription args p s)) path
        = Some (joined_lines (transcription s)))
  /\ (forall args p s path,
        output_path args = Some path -> file_write p = Ret tt ->
        files (snd (cleanup args p s)) path
        = Some (joined_lines (transcription s))).
Proof.
  split; [|split; [|split]].
  - intros lines. exists (fun line => truthy (strip line)).
    split; [apply truthy_strip_nonblank|reflexivity].
  - reflexivity.
  - intros args p s path Hp Hw.
    rewrite (save_transcription_ok _ _ _ _ Hp Hw). simpl.
    rewrite str_eqb_refl. reflexivity.
  - intros args p s path Hp Hw.
    unfold cleanup, bind, print, emit, modify, gets. simpl.
    rewrite print_lines_eq. simpl.
    match goal with
    | |- context [save_final_transcription args p ?st] =>
        pose proof (save_final_transcription_files args p st path Hp Hw) as Hs;
        destruct (save_final_transcription args p st) as [[[]|e] s3]
    end; simpl in *; rewrite Hs, str_eqb_refl; reflexivity.
Qed.

Lemma file_sink_overwrites_witness :
  let s := sample_state [lit ""; lit "hello"; lit "world"] [] None in
  files s (lit "out.txt") = Some (lit "older text")
  /\ files (snd (save_transcription sample_args (sample_poll 0 [] []) s))
       (lit "out.txt")
     = Some (lit "hello" ++ [NL] ++ lit "world")
  /\ files (snd (cleanup sample_args (sample_poll 0 [] []) s)) (lit "out.txt")
     = Some (lit "hello" ++ [NL] ++ lit "world").
Proof.
  intros s. split; [reflexivity|]. split.
  - rewrite (proj1 (proj2 (proj2 file_sink_overwrites))
               sample_args (sample_poll 0 [] []) s (lit "out.txt")
               eq_refl eq_refl).
    reflexivity.
  - rewrite (proj2 (proj2 (proj2 file_sink_overwrites))
               sample_args (sample_poll 0 [] []) s (lit "out.txt")
               eq_refl eq_refl).
    reflexivity.
Defined.

(* ===================================================================== *)
(** ** One pass of the loop *)
(* ===================================================================== *)

Lemma drain_shared_queue_eq (s : state) :
  drain_shared_queue s
  = (Ret match data_queue s with
         | [] => None
         | _ :: _ => Some (List.concat (data_queue s))
         end,
     set_data_queue Queue.new s).
Proof.
  unfold drain_shared_queue. rewrite process_audio_queue_eq. reflexivity.
Qed.

(** A pass that finds audio in the queue, up to the model call. *)
Lemma poll_body_reaches_model (h : host) (args : Namespace) (p : poll)
    (s : state) (chunk : bytes) (q : Queue.t) (gap : timedelta)
    (audio_np : list Z) :
  data_queue s = chunk :: q ->
  phrase_time s = None \/ timedelta_seconds h (phrase_timeout args) = Ret gap ->
  truthy (List.concat (chunk :: q)) = true ->
  convert_audio_to_numpy (List.concat (chunk :: q)) = Ret audio_np ->
  poll_body h args p s
  = (result <- lift (transcribe p audio_np (cuda_is_available h)) ;;
     process_result h args p
       match phrase_time s with
       | None => false
       | Some previous => now p - previous >? gap
       end result)
      (set_trace (trace s ++ [Transcribe audio_np (cuda_is_available h)])
         (set_data_queue Queue.new (set_phrase_time (Some (now p)) s))).
Proof.
  intros Hq Hgap Haudio Hconv. unfold poll_body.
  unfold bind at 1. unfold gets at 1. rewrite Hq. cbn [Queue.empty negb].
  unfold bind at 1. unfold gets at 1.
  assert (Hpc : phrase_complete h args (phrase_time s) (now p) s
                = (Ret match phrase_time s with
                       | None => false
                       | Some previous => now p - previous >? gap
                       end, s)).
  { destruct (phrase_time s) as [prev|]; [|reflexivity].
    destruct Hgap as [Hgap|Hgap]; [discriminate|].
    unfold phrase_complete, bind, lift. rewrite Hgap. reflexivity. }
  rewrite (bind_ret_eq _ _ _ _ _ Hpc).
  unfold bind at 1. unfold modify at 1.
  unfold bind at 1. rewrite drain_shared_queue_eq.
  cbn [data_queue set_phrase_time]. rewrite Hq, Haudio. cbn [negb].
  unfold bind at 1. unfold lift at 1. rewrite Hconv.
  unfold bind at 1. unfold emit at 1, modify at 1.
  reflexivity.
Qed.

Lemma snd_bind_keeps {A C B} (f : state -> B) (m : M A) (k : A -> M C)
    (s : state) :
  (forall a, keeps f (k a)) -> f (snd (bind m k s)) = f (snd (m s)).
Proof.
  intros Hk. unfold bind. destruct (m s) as [[a|e] s']; simpl; [|reflexivity].
  apply Hk.
Qed.

Lemma keeps_write_file {B} (f : state -> B) (p : poll) (path content : str) :
  (forall g s, f (set_files g s) = f s) -> keeps f (write_file p path content).
Proof.
  intros Hf. unfold write_file.
  destruct (file_write p) as [[]|e].
  - apply keeps_modify. intros s. apply Hf.
  - destruct (file_after_failure p) as [partial|]; [|apply keeps_raise].
    apply keeps_bind; [|intros _; apply keeps_raise].
    apply keeps_modify. intros s. apply Hf.
Qed.

Lemma keeps_save_transcription {B} (f : state -> B) (args : Namespace)
    (p : poll) :
  trace_blind f -> (forall g s, f (set_files g s) = f s) ->
  keeps f (save_transcription args p).
Proof.
  intros Ht Hf. unfold save_transcription.
  destruct (output_path args) as [path|]; [|apply keeps_ret].
  apply keeps_try_except.
  - apply keeps_bind; [apply keeps_gets|intros lines].
    apply keeps_write_file. exact Hf.
  - intros e. apply keeps_emit. exact Ht.
Qed.

Lemma keeps_drain_shared_queue {B} (f : state -> B) :
  (forall q s, f (set_data_queue q s) = f s) -> keeps f drain_shared_queue.
Proof.
  intros Hf s. rewrite drain_shared_queue_eq. simpl. apply Hf.
Qed.

(** The two [except] clauses of a pass only log. *)
Lemma iteration_frame {B} (f : state -> B) (h : host) (args : Namespace)
    (p : poll) (s : state) :
  trace_blind f ->
  f (snd (iteration h args p s)) = f (snd (poll_body h args p s)).
Proof.
  intros Hf. unfold iteration.
  destruct (poll_body h args p s) as [[[]|e] s']; simpl; [reflexivity|].
  destruct (except_KeyboardInterrupt e); [reflexivity|].
  destruct (except_Exception e); [|reflexivity].
  simpl. apply Hf.
Qed.

Lemma update_transcription_eq (complete : bool) (text : str) (s : state) :
  transcription s <> [] ->
  update_transcription complete text s
  = (Ret tt,
     set_transcription
       (if complete then transcription s ++ [text]
        else removelast (transcription s) ++ [text]) s).
Proof.
  intros Hne. unfold update_transcription, bind, gets, modify, lift.
  destruct complete; [reflexivity|].
  destruct (transcription s) as [|l ls]; [contradiction|]. reflexivity.
Qed.

Lemma update_transcription_step (complete : bool) (text : str) (s : state) :
  transcript_step (transcription s)
    (transcription (snd (update_transcription complete text s))).
Proof.
  destruct (transcription s) as [|l ls] eqn:E.
  - unfold update_transcription, bind, gets, modify, lift. rewrite E.
    destruct complete; simpl.
    + right. left. exists text. reflexivity.
    + left. exact E.
  - rewrite update_transcription_eq by (rewrite E; discriminate).
    simpl. rewrite E. destruct complete.
    + right. left. exists text. reflexivity.
    + right. right. exists text. split; [discriminate|reflexivity].
Qed.

Lemma process_result_transcription (h : host) (args : Namespace) (p : poll)
    (complete : bool) (result : transcribe_result) (s : state) :
  transcription (snd (process_result h args p complete result s))
  = if truthy (strip (result_text result))
    then transcription
           (snd (update_transcription complete
                   (with_confidence h args result (strip (result_text result)))
                   s))
    else transcription s.
Proof.
  unfold process_result.
  destruct (truthy (strip (result_text result))); [|reflexivity].
  apply snd_bind_keeps. intros _.
  apply keeps_bind; [apply keeps_gets|intros lines].
  apply keeps_bind; [auto with keeps|intros _].
  apply keeps_save_transcription; [auto with keeps|reflexivity].
Qed.

Lemma step_after_keeps {A C} (m : M A) (k : A -> M C) :
  keeps transcription m ->
  (forall a s, transcript_step (transcription s)
                 (transcription (snd (k a s)))) ->
  forall s, transcript_step (transcription s)
              (transcription (snd (bind m k s))).
Proof.
  intros Hm Hk s. unfold bind. specialize (Hm s).
  destruct (m s) as [[a|e] s']; simpl in *.
  - rewrite <- Hm. apply Hk.
  - left. exact Hm.
Qed.

Lemma keeps_step {A} (m : M A) :
  keeps transcription m ->
  forall s, transcript_step (transcription s) (transcription (snd (m s))).
Proof. intros Hm s. left. apply Hm. Qed.

Lemma poll_body_step (h : host) (args : Namespace) (p : poll) (s : state) :
  transcript_step (transcription s) (transcription (snd (poll_body h args p s))).
Proof.
  revert s. unfold poll_body.
  apply step_after_keeps; [apply keeps_gets|intros q].
  destruct (negb (Queue.empty q));
    [|apply keeps_step; auto with keeps].
  apply step_after_keeps; [apply keeps_gets|intros previous].
  apply step_after_keeps; [auto with keeps|intros complete].
  apply step_after_keeps; [apply keeps_modify; reflexivity|intros _].
  apply step_after_keeps;
    [apply keeps_drain_shared_queue; reflexivity|intros [audio_data|]];
    [|apply keeps_step; auto with keeps].
  destruct (negb (truthy audio_data)); [apply keeps_step; auto with keeps|].
  apply step_after_keeps; [apply keeps_lift|intros audio_np].
  apply step_after_keeps; [auto with keeps|intros _].
  apply step_after_keeps; [apply keeps_lift|intros result].
  intros s. rewrite process_result_transcription.
  destruct (truthy _); [apply update_transcription_step|left; reflexivity].
Qed.

Lemma iteration_step (h : host) (args : Namespace) (p : poll) (s : state) :
  transcript_step (transcription s) (transcription (snd (iteration h args p s))).
Proof.
  rewrite iteration_frame by auto with keeps. apply poll_body_step.
Qed.

Lemma transcript_step_length (l l' : list str) :
  transcript_step l l' -> (List.length l <= List.length l')%nat.
Proof.
  intros [->|[[text ->]|[text [Hne ->]]]].
  - lia.
  - rewrite length_app. simpl. lia.
  - pose proof (@app_removelast_last str l [] Hne) as E.
    apply (f_equal (@List.length str)) in E.
    rewrite length_app in E. rewrite length_app. simpl in *. lia.
Qed.

Lemma transcript_step_nonempty (l l' : list str) :
  transcript_step l l' -> l <> [] -> l' <> [].
Proof.
  intros H Hne. apply transcript_step_length in H.
  destruct l; [contradiction|]. destruct l'; [simpl in H; lia|discriminate].
Qed.

Lemma set_data_queue_same (s : state) : set_data_queue (data_queue s) s = s.
Proof. destruct s. reflexivity. Qed.

(** Between two passes the capture thread has put its chunks, in order. *)
Lemma record_callbacks_eq (chunks : list bytes) (s : state) :
  for_each chunks record_callback s
  = (Ret tt, set_data_queue (Queue.put_all chunks (data_queue s)) s).
Proof.
  revert s. induction chunks as [|c chunks IH]; intros s; simpl.
  - rewrite set_data_queue_same. reflexivity.
  - unfold bind, record_callback at 1, modify. rewrite IH. reflexivity.
Qed.

Lemma main_loop_nonempty (h : host) (args : Namespace) (polls : list poll)
    (s : state) :
  transcription s <> [] ->
  transcription (snd (main_loop h args polls s)) <> [].
Proof.
  revert s. induction polls as [|p polls IH]; intros s Hne; simpl; [exact Hne|].
  unfold bind at 1. rewrite record_callbacks_eq.
  set (s1 := set_data_queue _ s).
  assert (H1 : transcription s1 <> []) by exact Hne.
  pose proof (iteration_step h args p s1) as Hstep.
  apply transcript_step_nonempty in Hstep; [|exact H1].
  unfold bind. destruct (iteration h args p s1) as [[c|e] s2]; simpl in *.
  - destruct c; [apply IH; exact Hstep|exact Hstep].
  - exact Hstep.
Qed.

Ltac keeps_tac :=
  repeat first
    [ solve [auto with keeps]
    | apply keeps_modify; reflexivity
    | apply keeps_bind; [|intros ?]
    | apply keeps_try_except; [|intros ?]
    | apply keeps_if ].

Lemma startup_initialises (h : host) (args : Namespace) (s s1 : state) :
  startup h args s = (Ret tt, s1) ->
  transcription s1 = [[]] /\ phrase_time s1 = None /\ data_queue s1 = Queue.new.
Proof.
  unfold startup. intros H.
  apply bind_ret_inv in H as [? [s2 [_ H]]].
  apply bind_ret_inv in H as [? [s3 [H3 H]]].
  apply bind_ret_inv in H as [? [s4 [H4 H]]].
  apply bind_ret_inv in H as [? [s5 [H5 H]]].
  assert (E5 : s5 = set_transcription [[]] s4)
    by (unfold modify in H5; congruence).
  subst s5.
  match type of H with
  | ?rest _ = _ =>
      assert (Kt : keeps transcription rest) by keeps_tac;
      assert (Kp : keeps phrase_time rest) by keeps_tac;
      assert (Kq : keeps data_queue rest) by keeps_tac
  end.
  specialize (Kt (set_transcription [[]] s4)).
  specialize (Kp (set_transcription [[]] s4)).
  specialize (Kq (set_transcription [[]] s4)).
  rewrite H in Kt, Kp, Kq. simpl in Kt, Kp, Kq.
  split; [exact Kt|].
  match goal with
  | H3 : modify (set_data_queue Queue.new) ?a = (Ret _, s4),
    H2 : modify (set_phrase_time None) ?b = (Ret _, ?a) |- _ =>
      unfold modify in H2, H3;
      assert (E4 : s4 = set_data_queue Queue.new (set_phrase_time None b))
        by congruence
  end.
  subst s4. split; assumption.
Qed.

(* ===================================================================== *)
(** ** Phrase boundaries *)
(* ===================================================================== *)

(** C1, on the code.  The first pass that finds audio has no previous
    timestamp; the code declares no boundary there, and the text replaces
    the placeholder line instead of being appended after it. *)
Lemma first_poll_is_not_a_boundary :
  let s := sample_state [lit ""] [[x01; x00]] None in
  let p := sample_poll 5000000 [] (lit "hello") in
  Queue.empty (data_queue s) = false
  /\ phrase_time s = None
  /\ fst (phrase_complete sample_host sample_args (phrase_time s) (now p) s)
     = Ret false
  /\ transcription (snd (iteration sample_host sample_args p s))
     = [lit "hello"]
  /\ transcription (snd (iteration sample_host sample_args p s))
     <> transcription s ++ [lit "hello"].
Proof.
  repeat split; try reflexivity.
  vm_compute. discriminate.
Qed.

(** C1, amended.  In a pass that finds data in the queue, the boundary
    decision is a function of the previous timestamp, the current time and
    the gap threshold: a boundary is declared exactly when a previous
    timestamp exists and the time elapsed since it exceeds the gap; on the
    first pass with data (no previous timestamp) there is no boundary.
    When the model returns a non-blank text, a boundary appends it as a
    new line and otherwise it replaces the last line. *)
Theorem phrase_boundary_decision (h : host) (args : Namespace) (p : poll)
    (s : state) (chunk : bytes) (q : Queue.t) (gap : timedelta) :
  data_queue s = chunk :: q ->
  timedelta_seconds h (phrase_timeout args) = Ret gap ->
  let boundary :=
    match phrase_time s with
    | None => false
    | Some previous => now p - previous >? gap
    end in
  phrase_complete h args (phrase_time s) (now p) s = (Ret boundary, s)
  /\ (boundary = true <->
      exists previous, phrase_time s = Some previous /\ now p - previous > gap)
  /\ (phrase_time s = None -> boundary = false)
  /\ (forall audio_np result,
        truthy (List.concat (chunk :: q)) = true ->
        convert_audio_to_numpy (List.concat (chunk :: q)) = Ret audio_np ->
        transcribe p audio_np (cuda_is_available h) = Ret result ->
        truthy (strip (result_text result)) = true ->
        transcription s <> [] ->
        let text :=
          with_confidence h args result (strip (result_text result)) in
        transcription (snd (iteration h args p s))
        = if boundary
          then transcription s ++ [text]
          else removelast (transcription s) ++ [text]).
Proof.
  intros Hq Hgap boundary. split; [|split; [|split]].
  - subst boundary. destruct (phrase_time s) as [prev|]; [|reflexivity].
    unfold phrase_complete, bind, lift. rewrite Hgap. reflexivity.
  - subst boundary. destruct (phrase_time s) as [prev|].
    + rewrite Z.gtb_gt. split.
      * intros H. exists prev. split; [reflexivity|exact H].
      * intros [prev' [[= <-] H]]. exact H.
    + split; [discriminate|]. intros [prev' [E _]]. discriminate.
  - intros E. subst boundary. rewrite E. reflexivity.
  - intros audio_np result Haudio Hconv Hres Htext Hne text.
    rewrite iteration_frame by auto with keeps.
    rewrite (poll_body_reaches_model h args p s chunk q gap audio_np Hq
               (or_intror Hgap) Haudio Hconv).
    unfold bind at 1, lift at 1. rewrite Hres.
    rewrite process_result_transcription, Htext.
    rewrite update_transcription_eq by exact Hne.
    reflexivity.
Qed.

Lemma phrase_boundary_decision_witness :
  let s1 := sample_state [lit "hello"] [[x01; x00]] (Some 5000000) in
  (* 2 s after the previous audio: same phrase, the last line is replaced *)
  transcription
    (snd (iteration sample_host sample_args
            (sample_poll 7000000 [] (lit "hello there")) s1))
  = [lit "hello there"]
  (* 4 s after the previous audio: a new line *)
  /\ transcription
       (snd (iteration sample_host sample_args
               (sample_poll 9000000 [] (lit "world")) s1))
     = [lit "hello"; lit "world"].
Proof.
  intros s1. split.
  - apply (proj2 (proj2 (proj2
      (phrase_boundary_decision sample_host sample_args
         (sample_poll 7000000 [] (lit "hello there")) s1
         [x01; x00] [] 3000000 eq_refl eq_refl)))
      [1] {| result_text := lit "hello there"; result_segments := None |});
      try reflexivity.
    discriminate.
  - apply (proj2 (proj2 (proj2
      (phrase_boundary_decision sample_host sample_args
         (sample_poll 9000000 [] (lit "world")) s1
         [x01; x00] [] 3000000 eq_refl eq_refl)))
      [1] {| result_text := lit "world"; result_segments := None |});
      try reflexivity.
    discriminate.
Defined.

(* ===================================================================== *)
(** ** The transcript *)
(* ===================================================================== *)

Lemma cleanup_keeps_transcription (args : Namespace) (p : poll) :
  keeps transcription (cleanup args p).
Proof.
  unfold cleanup.
  apply keeps_bind; [auto with keeps|intros _].
  apply keeps_bind; [auto with keeps|intros _].
  apply keeps_bind; [apply keeps_gets|intros lines].
  apply keeps_bind; [auto with keeps|intros _].
  apply keeps_bind; [apply save_final_transcription_keeps_transcription|].
  intros _. auto with keeps.
Qed.

(** C6. The transcript is never empty.  [main] sets it to one empty line
    before the loop; a pass leaves it as it is, adds one line at the end,
    or replaces its last line; its length never goes down; after any
    number of passes it is non-empty; and the [finally] block does not
    touch it. *)
Theorem transcription_never_empty (h : host) (args : Namespace) :
  (forall s s1, startup h args s = (Ret tt, s1) -> transcription s1 = [[]])
  /\ (forall p s, transcription (snd (cleanup args p s)) = transcription s)
  /\ (forall p s,
        transcript_step (transcription s)
          (transcription (snd (iteration h args p s))))
  /\ (forall p s,
        (List.length (transcription s)
         <= List.length (transcription (snd (iteration h args p s))))%nat)
  /\ (forall polls s s1,
        startup h args s = (Ret tt, s1) ->
        transcription (snd (main_loop h args polls s1)) <> []).
Proof.
  split; [|split; [|split; [|split]]].
  - intros s s1 H. apply (startup_initialises h args s s1 H).
  - intros p s. apply cleanup_keeps_transcription.
  - intros p s. apply iteration_step.
  - intros p s. apply transcript_step_length, iteration_step.
  - intros polls s s1 H. apply main_loop_nonempty.
    destruct (startup_initialises h args s s1 H) as [-> _]. discriminate.
Qed.

Lemma transcription_never_empty_witness :
  exists s1,
    startup sample_host sample_args (initial_state empty_disk) = (Ret tt, s1)
    /\ transcription s1 = [[]]
    /\ transcription
         (snd (main_loop sample_host sample_args
                 [sample_poll 0 [[x01; x00]] (lit "hello");
                  sample_poll 250000 [] (lit "");
                  sample_poll 9000000 [[x02; x00]] (lit "world")] s1))
       <> [].
Proof.
  eexists. split; [vm_compute; reflexivity|].
  split.
  - apply (proj1 (transcription_never_empty sample_host sample_args)
             (initial_state empty_disk)).
    vm_compute. reflexivity.
  - apply (proj2 (proj2 (proj2 (proj2
             (transcription_never_empty sample_host sample_args))))
             _ (initial_state empty_disk)).
    vm_compute. reflexivity.
Defined.

(* ===================================================================== *)
(** ** A model call that fails *)
(* ===================================================================== *)

(** With an empty queue a pass only sleeps. *)
Lemma poll_body_idle (h : host) (args : Namespace) (p : poll) (s : state) :
  data_queue s = Queue.new -> poll_body h args p s = do_sleep p s.
Proof.
  intros Hq. unfold poll_body. unfold bind at 1, gets at 1. rewrite Hq.
  reflexivity.
Qed.

(** C7. When the model call of a pass raises an error, the pass logs it
    and ends normally, so the loop goes on to the next pass; the model is
    called once in that pass; the audio has left the queue, so a later
    pass without new audio only sleeps; and the transcript and the output
    file are as they were. *)
Theorem failed_transcription_is_absorbed (h : host) (args : Namespace)
    (p : poll) (s : state) (chunk : bytes) (q : Queue.t) (gap : timedelta)
    (audio_np : list Z) (c : exn_class) (msg : str) :
  data_queue s = chunk :: q ->
  phrase_time s = None \/ timedelta_seconds h (phrase_timeout args) = Ret gap ->
  truthy (List.concat (chunk :: q)) = true ->
  convert_audio_to_numpy (List.concat (chunk :: q)) = Ret audio_np ->
  transcribe p audio_np (cuda_is_available h) = Raise (Exn c msg) ->
  exists events s',
    iteration h args p s = (Ret Continue, s')
    /\ trace s' = trace s ++ events
    /\ events = [Transcribe audio_np (cuda_is_available h);
                 LogError (lit "Error during transcription: " ++ msg)]
    /\ List.length (filter is_transcribe_call events) = 1%nat
    /\ transcription s' = transcription s
    /\ files s' = files s
    /\ data_queue s' = Queue.new
    /\ (forall p', poll_body h args p' s' = do_sleep p' s')
    /\ (forall rest, captured p = [] ->
          main_loop h args (p :: rest) s = main_loop h args rest s').
Proof.
  intros Hq Hgap Haudio Hconv Hfail.
  assert (Hit : iteration h args p s
    = (Ret Continue,
       set_trace
         ((trace s ++ [Transcribe audio_np (cuda_is_available h)])
          ++ [LogError (lit "Error during transcription: " ++ msg)])
         (set_data_queue Queue.new (set_phrase_time (Some (now p)) s)))).
  { unfold iteration.
    rewrite (poll_body_reaches_model h args p s chunk q gap audio_np
               Hq Hgap Haudio Hconv).
    unfold bind at 1, lift at 1. rewrite Hfail. reflexivity. }
  eexists. eexists. split; [exact Hit|].
  split; [simpl; rewrite <- app_assoc; reflexivity|].
  split; [reflexivity|]. split; [reflexivity|].
  split; [reflexivity|]. split; [reflexivity|]. split; [reflexivity|].
  split.
  - intros p'. apply poll_body_idle. reflexivity.
  - intros rest Hcap. simpl. unfold bind at 1.
    rewrite record_callbacks_eq, Hcap. simpl.
    rewrite set_data_queue_same. unfold bind. rewrite Hit. reflexivity.
Qed.

Lemma failed_transcription_is_absorbed_witness :
  let s := sample_state [lit "hello"] [[x01; x00]] (Some 5000000) in
  exists events s',
    iteration sample_host sample_args (failing_poll 6000000 []) s
      = (Ret Continue, s')
    /\ trace s' = trace s ++ events
    /\ events = [Transcribe [1] false;
                 LogError (lit "Error during transcription: "
                           ++ lit "CUDA out of memory")]
    /\ List.length (filter is_transcribe_call events) = 1%nat
    /\ transcription s' = [lit "hello"]
    /\ files s' = files s
    /\ data_queue s' = Queue.new
    /\ (forall p', poll_body sample_host sample_args p' s' = do_sleep p' s')
    /\ (forall rest, captured (failing_poll 6000000 []) = [] ->
          main_loop sample_host sample_args (failing_poll 6000000 [] :: rest) s
          = main_loop sample_host sample_args rest s').
Proof.
  intros s.
  apply (failed_transcription_is_absorbed sample_host sample_args
           (failing_poll 6000000 []) s [x01; x00] [] 3000000 [1]
           RuntimeError (lit "CUDA out of memory")).
  - reflexivity.
  - right. reflexivity.
  - reflexivity.
  - reflexivity.
  - reflexivity.
Defined.

(* ===================================================================== *)
(** ** What a computation adds to the trace *)
(* ===================================================================== *)

Lemma set_trace_twice (t t' : list event) (s : state) :
  set_trace t (set_trace t' s) = set_trace t s.
Proof. reflexivity. Qed.

Section Emits.
Context (P : event -> bool).

Lemma emits_ret {A} (a : A) : emits_only P (ret a).
Proof. intros s. exists []. rewrite app_nil_r. split; reflexivity. Qed.

Lemma emits_raise {A} (e : exn) : emits_only P (@raise A e).
Proof. intros s. exists []. rewrite app_nil_r. split; reflexivity. Qed.

Lemma emits_lift {A} (r : res A) : emits_only P (lift r).
Proof. intros s. exists []. rewrite app_nil_r. split; reflexivity. Qed.

Lemma emits_gets {A} (g : state -> A) : emits_only P (gets g).
Proof. intros s. exists []. rewrite app_nil_r. split; reflexivity. Qed.

Lemma emits_modify (g : state -> state) :
  (forall s, trace (g s) = trace s) -> emits_only P (modify g).
Proof.
  intros H s. exists []. rewrite app_nil_r. split; [apply H|reflexivity].
Qed.

Lemma emits_emit (ev : event) : P ev = true -> emits_only P (emit ev).
Proof.
  intros H s. exists [ev]. split; [reflexivity|]. simpl. rewrite H. reflexivity.
Qed.

Lemma emits_bind {A C} (m : M A) (k : A -> M C) :
  emits_only P m -> (forall a, emits_only P (k a)) -> emits_only P (bind m k).
Proof.
  intros Hm Hk s. unfold bind. destruct (Hm s) as [e1 [T1 F1]].
  destruct (m s) as [[a|e] s1]; simpl in *.
  - destruct (Hk a s1) as [e2 [T2 F2]]. exists (e1 ++ e2).
    rewrite T2, T1, app_assoc, forallb_app, F1, F2. split; reflexivity.
  - exists e1. split; assumption.
Qed.

Lemma emits_try_except {A} (m : M A) (catches : exn -> bool)
    (handler : exn -> M A) :
  emits_only P m -> (forall e, emits_only P (handler e)) ->
  emits_only P (try_except m catches handler).
Proof.
  intros Hm Hh s. unfold try_except. destruct (Hm s) as [e1 [T1 F1]].
  destruct (m s) as [[a|e] s1]; simpl in *.
  - exists e1. split; assumption.
  - destruct (catches e); simpl.
    + destruct (Hh e s1) as [e2 [T2 F2]]. exists (e1 ++ e2).
      rewrite T2, T1, app_assoc, forallb_app, F1, F2. split; reflexivity.
    + exists e1. split; assumption.
Qed.

Lemma emits_for_each {A} (l : list A) (body : A -> M unit) :
  (forall x, emits_only P (body x)) -> emits_only P (for_each l body).
Proof.
  intros Hb. induction l as [|x l IH]; simpl.
  - apply emits_ret.
  - apply emits_bind; [apply Hb|intros _; exact IH].
Qed.

Lemma emits_if {A} (b : bool) (m1 m2 : M A) :
  emits_only P m1 -> emits_only P m2 -> emits_only P (if b then m1 else m2).
Proof. destruct b; auto. Qed.

End Emits.

Ltac emits_tac :=
  repeat first
    [ apply emits_ret | apply emits_raise | apply emits_lift | apply emits_gets
    | apply emits_emit; reflexivity
    | apply emits_modify; reflexivity
    | apply emits_bind; [|intros ?]
    | apply emits_try_except; [|intros ?]
    | apply emits_for_each; intros ?
    | apply emits_if ].


(* ===================================================================== *)
(** ** Choosing the microphone *)
(* ===================================================================== *)




Lemma find_microphone_first_match (h : host) (mic_name : str) (index : nat)
    (pre post : list str) (name : str) (s : state) :
  Forall (fun n => contains mic_name n = false) pre ->
  contains mic_name name = true ->
  find_microphone h mic_name index (pre ++ name :: post) s
  = try_except (new_microphone h (Some (index + List.length pre)%nat))
      (except_classes [OSError])
      (fun e => raise (Exn RuntimeError
                         (lit "Failed to initialize microphone '" ++ name
                          ++ lit "': " ++ exn_str e))) s.
Proof.
  intros Hpre Hname. revert index.
  induction Hpre as [|n pre Hn _ IH]; intros index; simpl.
  - rewrite Hname, Nat.add_0_r. reflexivity.
  - rewrite Hn, IH. replace (S index + List.length pre)%nat
      with (index + S (List.length pre))%nat by lia. reflexivity.
Qed.

Lemma find_microphone_no_match (h : host) (mic_name : str) (index : nat)
    (names : list str) (s : state) :
  Forall (fun n => contains mic_name n = false) names ->
  find_microphone h mic_name index names s
  = (Raise (Exn ValueError
              (lit "Microphone '" ++ mic_name ++ lit "' not found")), s).
Proof.
  intros Hnames. revert index.
  induction Hnames as [|n names Hn _ IH]; intros index; simpl.
  - reflexivity.
  - rewrite Hn. apply IH.
Qed.

(** X2. On Linux, with a device name given, exactly one device is opened:
    the first one whose name contains the given name, under its position
    in the list.  If opening it fails with an [OSError] the failure is
    reported as a [RuntimeError] naming the device; any other exception
    passes through. *)
Theorem microphone_first_match (h : host) (mic_name : str) (s : state)
    (pre post : list str) (name : str) :
  contains (lit "linux") (platform h) = true ->
  truthy mic_name = true -> mic_name <> lit "list" ->
  list_microphone_names h = pre ++ name :: post ->
  Forall (fun n => contains mic_name n = false) pre ->
  contains mic_name name = true ->
  let s' := set_trace (trace s ++ [ListMicrophoneNames;
                                   OpenMicrophone (Some (List.length pre))]) s in
  get_microphone_source h (Some mic_name) s
  = match Microphone h (Some (List.length pre)) with
    | Ret _ => (Ret tt, s')
    | Raise e =>
        if except_classes [OSError] e
        then (Raise (Exn RuntimeError
                       (lit "Failed to initialize microphone '" ++ name
                        ++ lit "': " ++ exn_str e)), s')
        else (Raise e, s')
    end.
Proof.
  intros Hlinux Htruthy Hlist Hnames Hpre Hname s'.
  unfold get_microphone_source. rewrite Hlinux, Htruthy.
  apply str_eqb_neq in Hlist. rewrite Hlist. simpl.
  unfold bind at 1, emit at 1, modify at 1.
  rewrite Hnames, (find_microphone_first_match _ _ _ _ _ _ _ Hpre Hname).
  unfold try_except, new_microphone, bind, emit, modify, lift, raise. simpl.
  subst s'. rewrite <- app_assoc. simpl.
  destruct (Microphone h (Some (List.length pre))) as [[]|e]; [reflexivity|].
  destruct (except_classes [OSError] e); reflexivity.
Qed.

Lemma microphone_first_match_witness :
  get_microphone_source (usb_host (Ret tt)) (Some (lit "usb"))
    (initial_state empty_disk)
  = (Ret tt,
     set_trace [ListMicrophoneNames; OpenMicrophone (Some 1%nat)]
       (initial_state empty_disk))
  /\ get_microphone_source
       (usb_host (Raise (Exn OSError (lit "device busy")))) (Some (lit "usb"))
       (initial_state empty_disk)
     = (Raise (Exn RuntimeError
                 (lit "Failed to initialize microphone 'usb headset': device busy")),
        set_trace [ListMicrophoneNames; OpenMicrophone (Some 1%nat)]
          (initial_state empty_disk)).
Proof.
  split.
  - apply (microphone_first_match (usb_host (Ret tt)) (lit "usb")
             (initial_state empty_disk) [lit "HDA Intel"] [lit "usb webcam"]
             (lit "usb headset")); try reflexivity.
    + vm_compute. discriminate.
    + repeat constructor.
  - apply (microphone_first_match
             (usb_host (Raise (Exn OSError (lit "device busy")))) (lit "usb")
             (initial_state empty_disk) [lit "HDA Intel"] [lit "usb webcam"]
             (lit "usb headset")); try reflexivity.
    + vm_compute. discriminate.
    + repeat constructor.
Defined.

(** X3. Off Linux the device name plays no part: the default device is
    opened, and an [OSError] while opening it is reported as a
    [RuntimeError]; any other exception passes through. *)
Theorem default_microphone_elsewhere (h : host) (mic_name : option str)
    (s : state) :
  contains (lit "linux") (platform h) = false ->
  let s' := set_trace (trace s ++ [OpenMicrophone None]) s in
  get_microphone_source h mic_name s
  = match Microphone h None with
    | Ret _ => (Ret tt, s')
    | Raise e =>
        if except_classes [OSError] e
        then (Raise (Exn RuntimeError
                       (lit "Failed to initialize default microphone: "
                        ++ exn_str e)), s')
        else (Raise e, s')
    end.
Proof.
  intros Hlinux s'. unfold get_microphone_source. rewrite Hlinux.
  unfold try_except, new_microphone, bind, emit, modify, lift, raise. simpl.
  destruct (Microphone h None) as [[]|e]; [reflexivity|].
  destruct (except_classes [OSError] e); reflexivity.
Qed.

Lemma default_microphone_elsewhere_witness :
  get_microphone_source mac_host (Some (lit "list")) (initial_state empty_disk)
  = (Ret tt, set_trace [OpenMicrophone None] (initial_state empty_disk)).
Proof.
  apply (default_microphone_elsewhere mac_host (Some (lit "list"))
           (initial_state empty_disk)).
  reflexivity.
Defined.

Ltac startup_begin Hv :=
  unfold startup;
  erewrite bind_ret_eq by (unfold try_except, lift; rewrite Hv; reflexivity);
  erewrite bind_ret_eq by reflexivity;
  erewrite bind_ret_eq by reflexivity;
  erewrite bind_ret_eq by reflexivity;
  erewrite bind_ret_eq by reflexivity.

(** X4. On Linux, when no device name contains the name asked for,
    [main] opens no device, logs "Microphone initialization failed:
    Microphone '...' not found" and leaves with [sys.exit(1)] before any
    model is loaded. *)
Theorem microphone_not_found_exits_one (h : host) (args : Namespace)
    (polls : list poll) (final : poll) (s : state) :
  validate_arguments args = Ret tt ->
  contains (lit "linux") (platform h) = true ->
  truthy (default_microphone args) = true ->
  default_microphone args <> lit "list" ->
  Forall (fun n => contains (default_microphone args) n = false)
    (list_microphone_names h) ->
  main h args polls final s
  = (Raise (SystemExit 1),
     set_trace
       (trace s
        ++ [SetEnergyThreshold (energy_threshold args);
            ListMicrophoneNames;
            LogError (lit "Microphone initialization failed: "
                      ++ lit "Microphone '" ++ default_microphone args
                      ++ lit "' not found")])
       (started s)).
Proof.
  intros Hv Hlinux Htruthy Hlist Hnames.
  unfold main. apply bind_raise_eq. startup_begin Hv.
  apply bind_raise_eq. unfold try_except. rewrite Hlinux.
  unfold get_microphone_source. rewrite Hlinux, Htruthy.
  apply str_eqb_neq in Hlist. rewrite Hlist. simpl.
  unfold bind at 1, emit at 1, modify at 1.
  rewrite (find_microphone_no_match _ _ _ _ _ Hnames). simpl.
  unfold bind, emit, modify, sys_exit, raise, started. simpl.
  rewrite <- !app_assoc. reflexivity.
Qed.

Lemma microphone_not_found_exits_one_witness :
  main (usb_host (Ret tt)) (with_default_microphone (lit "bluetooth") sample_args)
    [] (sample_poll 0 [] []) (initial_state empty_disk)
  = (Raise (SystemExit 1),
     set_trace
       [SetEnergyThreshold 1000; ListMicrophoneNames;
        LogError (lit "Microphone initialization failed: Microphone 'bluetooth' not found")]
       (started (initial_state empty_disk))).
Proof.
  apply (microphone_not_found_exits_one (usb_host (Ret tt))
           (with_default_microphone (lit "bluetooth") sample_args)
           [] (sample_poll 0 [] []) (initial_state empty_disk));
    try reflexivity.
  - vm_compute. discriminate.
  - repeat constructor.
Defined.

(* ===================================================================== *)
(** ** Loading the model *)
(* ===================================================================== *)

Lemma load_whisper_model_failure (h : host) (model_name : str)
    (non_english : bool) (s : state) (e : exn) :
  let loaded := resolved_model_name model_name non_english in
  whisper_load_model h loaded = Raise e ->
  load_whisper_model h model_name non_english s
  = (Raise match e with
           | Exn _ msg =>
               Exn RuntimeError (lit "Error loading model '" ++ loaded
                                 ++ lit "': " ++ msg)
           | _ => e
           end,
     set_trace (trace s ++ [LogInfo (lit "Loading Whisper model: " ++ loaded);
                            LoadModel loaded]) s).
Proof.
  intros loaded Hload.
  unfold load_whisper_model, try_except, bind, emit, modify, lift, raise.
  simpl. fold loaded. rewrite Hload. simpl.
  rewrite <- app_assoc. destruct e; reflexivity.
Qed.

(** X5. When the library fails to load the model, [load_whisper_model]
    raises a [RuntimeError] that names the model it asked for and carries
    the library's message, whatever the class of the library's exception;
    "Model loaded successfully" is not logged.  An interrupt or an exit is
    not wrapped. *)
Theorem model_load_failure_is_runtime_error (h : host) (model_name : str)
    (non_english : bool) (s : state) (e : exn) :
  let loaded := resolved_model_name model_name non_english in
  whisper_load_model h loaded = Raise e ->
  load_whisper_model h model_name non_english s
  = (Raise match e with
           | Exn _ msg =>
               Exn RuntimeError (lit "Error loading model '" ++ loaded
                                 ++ lit "': " ++ msg)
           | _ => e
           end,
     set_trace (trace s ++ [LogInfo (lit "Loading Whisper model: " ++ loaded);
                            LoadModel loaded]) s).
Proof. apply load_whisper_model_failure. Qed.

Lemma model_load_failure_is_runtime_error_witness :
  load_whisper_model no_model_host (lit "base") false (initial_state empty_disk)
  = (Raise (Exn RuntimeError
              (lit "Error loading model 'base.en': no space left")),
     set_trace [LogInfo (lit "Loading Whisper model: base.en");
                LoadModel (lit "base.en")] (initial_state empty_disk)).
Proof.
  apply (model_load_failure_is_runtime_error no_model_host (lit "base") false
           (initial_state empty_disk) (Exn OSError (lit "no space left"))).
  reflexivity.
Defined.

(** X6. When the microphone is there but the model cannot be loaded,
    [main] logs the [RuntimeError]'s message and leaves with
    [sys.exit(1)]; the ambient-noise adjustment and the recording are not
    started. *)
Theorem model_load_failure_exits_one (h : host) (args : Namespace)
    (polls : list poll) (final : poll) (s s2 : state) (c : exn_class)
    (msg : str) :
  let loaded := resolved_model_name (model args) (non_english args) in
  validate_arguments args = Ret tt ->
  microphone_stage h args
    (set_trace (trace s ++ [SetEnergyThreshold (energy_threshold args)])
       (started s))
  = (Ret tt, s2) ->
  whisper_load_model h loaded = Raise (Exn c msg) ->
  main h args polls final s
  = (Raise (SystemExit 1),
     set_trace
       (trace s2
        ++ [LogInfo (lit "Loading Whisper model: " ++ loaded);
            LoadModel loaded;
            LogError (lit "Error loading model '" ++ loaded ++ lit "': " ++ msg)])
       s2).
Proof.
  intros loaded Hv Hmic Hload.
  unfold main. apply bind_raise_eq. startup_begin Hv.
  erewrite bind_ret_eq
    by (unfold try_except; unfold microphone_stage in Hmic;
        unfold started in Hmic; simpl in Hmic |- *; rewrite Hmic; reflexivity).
  apply bind_raise_eq. unfold try_except.
  rewrite (load_whisper_model_failure h (model args)
             (non_english args) s2 (Exn c msg) Hload).
  simpl. unfold bind, emit, modify, sys_exit, raise. simpl.
  rewrite <- !app_assoc. reflexivity.
Qed.

Lemma model_load_failure_exits_one_witness :
  main no_model_host sample_args [] (sample_poll 0 [] [])
    (initial_state empty_disk)
  = (Raise (SystemExit 1),
     set_trace
       [SetEnergyThreshold 1000; OpenMicrophone None;
        LogInfo (lit "Loading Whisper model: medium.en");
        LoadModel (lit "medium.en");
        LogError (lit "Error loading model 'medium.en': no space left")]
       (started (initial_state empty_disk))).
Proof.
  apply (model_load_failure_exits_one no_model_host sample_args []
           (sample_poll 0 [] []) (initial_state empty_disk)
           (set_trace [SetEnergyThreshold 1000; OpenMicrophone None]
              (started (initial_state empty_disk)))
           OSError (lit "no space left")); reflexivity.
Defined.

(* ===================================================================== *)
(** ** The order of start-up *)
(* ===================================================================== *)




(* ===================================================================== *)
(** ** Decoding the audio *)
(* ===================================================================== *)

Lemma bytes_pair_ind (P : bytes -> Prop) :
  P [] -> (forall b, P [b]) ->
  (forall lo hi rest, P rest -> P (lo :: hi :: rest)) ->
  forall l, P l.
Proof.
  intros H0 H1 H2 l.
  assert (H : P l /\ forall b, P (b :: l)).
  { induction l as [|x l [IHl IHc]].
    - split; [exact H0|exact H1].
    - split; [apply IHc|]. intros b. apply H2. exact IHl. }
  exact (proj1 H).
Qed.

Lemma int16_range (lo hi : byte) :
  is_int16 (int16 (Z.of_N (Byte.to_N lo) + 256 * Z.of_N (Byte.to_N hi))).
Proof.
  pose proof (Byte.to_N_bounded lo). pose proof (Byte.to_N_bounded hi).
  unfold is_int16, int16.
  destruct (Z.ltb_spec (Z.of_N (Byte.to_N lo) + 256 * Z.of_N (Byte.to_N hi))
              32768); lia.
Qed.

Lemma frombuffer_int16_even (b : bytes) :
  match frombuffer_int16 b with
  | Some samples =>
      Nat.even (List.length b) = true
      /\ (2 * List.length samples = List.length b)%nat
      /\ Forall is_int16 samples
  | None => Nat.even (List.length b) = false
  end.
Proof.
  induction b as [| |lo hi rest IH] using bytes_pair_ind.
  - simpl. repeat split. constructor.
  - reflexivity.
  - change (frombuffer_int16 (lo :: hi :: rest))
      with (match frombuffer_int16 rest with
            | Some l =>
                Some (int16 (Z.of_N (Byte.to_N lo)
                             + 256 * Z.of_N (Byte.to_N hi)) :: l)
            | None => None
            end).
    destruct (frombuffer_int16 rest) as [l|].
    + destruct IH as [He [Hl Hr]]. split; [exact He|]. split.
      * simpl. simpl in Hl. lia.
      * constructor; [apply int16_range|exact Hr].
    + exact IH.
Qed.

Lemma frombuffer_int16_app (a b : bytes) (sa : list Z) :
  frombuffer_int16 a = Some sa ->
  frombuffer_int16 (a ++ b)
  = match frombuffer_int16 b with
    | Some sb => Some (sa ++ sb)
    | None => None
    end.
Proof.
  revert sa. induction a as [| |lo hi rest IH] using bytes_pair_ind;
    intros sa Ha.
  - injection Ha as <-. simpl. destruct (frombuffer_int16 b); reflexivity.
  - discriminate.
  - change (frombuffer_int16 (lo :: hi :: rest))
      with (match frombuffer_int16 rest with
            | Some l =>
                Some (int16 (Z.of_N (Byte.to_N lo)
                             + 256 * Z.of_N (Byte.to_N hi)) :: l)
            | None => None
            end) in Ha.
    change (frombuffer_int16 ((lo :: hi :: rest) ++ b))
      with (match frombuffer_int16 (rest ++ b) with
            | Some l =>
                Some (int16 (Z.of_N (Byte.to_N lo)
                             + 256 * Z.of_N (Byte.to_N hi)) :: l)
            | None => None
            end).
    destruct (frombuffer_int16 rest) as [l|]; [|discriminate].
    injection Ha as <-. rewrite (IH l eq_refl).
    destruct (frombuffer_int16 b); reflexivity.
Qed.

(** X8. [convert_audio_to_numpy] accepts exactly the buffers of even
    length: such a buffer gives one sample for every two bytes, each in
    the 16-bit range, so that every value of the array lies in [-1, 1);
    a buffer of odd length raises [ValueError]. *)
Theorem convert_audio_to_numpy_samples (audio_data : bytes) :
  match convert_audio_to_numpy audio_data with
  | Ret samples =>
      Nat.even (List.length audio_data) = true
      /\ (2 * List.length samples = List.length audio_data)%nat
      /\ Forall (fun x => - AUDIO_NORMALIZATION_FACTOR <= x
                          < AUDIO_NORMALIZATION_FACTOR) samples
  | Raise e =>
      Nat.even (List.length audio_data) = false
      /\ exists msg, e = Exn ValueError msg
  end.
Proof.
  unfold convert_audio_to_numpy.
  pose proof (frombuffer_int16_even audio_data) as H.
  destruct (frombuffer_int16 audio_data) as [samples|].
  - exact H.
  - split; [exact H|]. eexists. reflexivity.
Qed.

Lemma convert_joined_chunks (chunks : list bytes) (samples : list (list Z)) :
  Forall2 (fun chunk l => convert_audio_to_numpy chunk = Ret l) chunks samples ->
  convert_audio_to_numpy (join [] chunks) = Ret (List.concat samples).
Proof.
  intros H. rewrite join_nil_sep. induction H as [|c l cs ls Hc _ IH].
  - reflexivity.
  - simpl. unfold convert_audio_to_numpy in *.
    destruct (frombuffer_int16 c) as [sc|] eqn:Ec; [|discriminate].
    injection Hc as ->. rewrite (frombuffer_int16_app _ _ _ Ec).
    destruct (frombuffer_int16 (List.concat cs)) as [scs|]; [|discriminate].
    injection IH as ->. reflexivity.
Qed.

(** X9. Decoding goes through the concatenation that the queue drain
    makes: when every chunk decodes on its own, the joined buffer decodes
    to the chunks' samples one after the other. *)
Theorem convert_audio_to_numpy_concat (chunks : list bytes)
    (samples : list (list Z)) :
  Forall2 (fun chunk l => convert_audio_to_numpy chunk = Ret l) chunks samples ->
  convert_audio_to_numpy (join [] chunks) = Ret (List.concat samples).
Proof. apply convert_joined_chunks. Qed.

Lemma convert_audio_to_numpy_concat_witness :
  convert_audio_to_numpy (join [] [[x01; x00]; [xff; xff; x00; x80]])
  = Ret [1; -1; -32768].
Proof.
  apply (convert_audio_to_numpy_concat
           [[x01; x00]; [xff; xff; x00; x80]] [[1]; [-1; -32768]]).
  repeat constructor.
Defined.

(* ===================================================================== *)
(** ** The console *)
(* ===================================================================== *)

Lemma clear_console_eq (h : host) (p : poll) (s : state) :
  let ran := set_trace (trace s ++ [clear_command h]) s in
  clear_console h p s
  = match subprocess_run p with
    | Ret _ => (Ret tt, ran)
    | Raise e =>
        if except_classes [SubprocessError; FileNotFoundError] e
        then (Ret tt,
              set_trace (trace ran
                         ++ [PrintCall (repeat NL CONSOLE_CLEAR_FALLBACK_LINES)
                               [NL]]) s)
        else (Raise e, ran)
    end.
Proof.
  intros ran. subst ran. unfold clear_console, clear_command, try_except.
  destruct (str_eqb (os_name h) (lit "nt"));
    unfold run, bind, emit, modify, lift; simpl;
    (destruct (subprocess_run p) as [[]|e]; simpl; [reflexivity|]);
    (destruct (except_classes [SubprocessError; FileNotFoundError] e);
       [|reflexivity]);
    unfold print, emit, modify; simpl; rewrite str_mul_char; reflexivity.
Qed.

(** X10. [clear_console] runs "cls" through the shell on Windows and
    "clear" elsewhere.  When the command succeeds nothing is printed; on
    [SubprocessError] or [FileNotFoundError] the 50 newlines are printed;
    any other exception reaches the caller, with nothing printed. *)
Theorem clear_console_outcomes (h : host) (p : poll) (s : state) :
  let ran := set_trace (trace s ++ [clear_command h]) s in
  clear_console h p s
  = match subprocess_run p with
    | Ret _ => (Ret tt, ran)
    | Raise e =>
        if except_classes [SubprocessError; FileNotFoundError] e
        then (Ret tt,
              set_trace (trace ran
                         ++ [PrintCall (repeat NL CONSOLE_CLEAR_FALLBACK_LINES)
                               [NL]]) s)
        else (Raise e, ran)
    end.
Proof. apply clear_console_eq. Qed.

Lemma display_transcription_eq (h : host) (p : poll)
    (lines : list str) (s : state) :
  display_transcription h p lines s
  = match clear_console h p s with
    | (Ret _, s1) =>
        (Ret tt,
         set_trace (trace s1 ++ printed_lines lines ++ [PrintCall [] []]) s1)
    | (Raise e, s1) => (Raise e, s1)
    end.
Proof.
  unfold display_transcription. unfold bind at 1.
  destruct (clear_console h p s) as [[[]|e] s1]; [|reflexivity].
  unfold bind. rewrite print_lines_eq. unfold emit, modify, printed_lines.
  simpl. rewrite <- app_assoc. reflexivity.
Qed.


Lemma display_transcription_ok (h : host) (p : poll) (lines : list str)
    (s : state) :
  subprocess_run p = Ret tt ->
  display_transcription h p lines s
  = (Ret tt, set_trace (trace s ++ display_events h lines) s).
Proof.
  intros Hrun. rewrite display_transcription_eq, clear_console_eq.
  rewrite Hrun. unfold display_events. simpl. rewrite <- app_assoc.
  reflexivity.
Qed.

(* ===================================================================== *)
(** ** Passes of the loop, case by case *)
(* ===================================================================== *)

Lemma iteration_of_ret (h : host) (args : Namespace) (p : poll) (s s' : state) :
  poll_body h args p s = (Ret tt, s') ->
  iteration h args p s = (Ret Continue, s').
Proof. intros H. unfold iteration. rewrite H. reflexivity. Qed.

Lemma iteration_of_interrupt (h : host) (args : Namespace) (p : poll)
    (s s' : state) :
  poll_body h args p s = (Raise KeyboardInterrupt, s') ->
  iteration h args p s = (Ret Break, s').
Proof. intros H. unfold iteration. rewrite H. reflexivity. Qed.

Lemma iteration_of_error (h : host) (args : Namespace) (p : poll)
    (s s' : state) (c : exn_class) (msg : str) :
  poll_body h args p s = (Raise (Exn c msg), s') ->
  iteration h args p s
  = (Ret Continue,
     set_trace (trace s' ++ [LogError (lit "Error during transcription: "
                                       ++ msg)]) s').
Proof. intros H. unfold iteration. rewrite H. reflexivity. Qed.

(** X12. A pass that finds the queue empty does nothing but sleep for
    [SLEEP_INTERVAL]: the queue, the phrase timestamp, the transcript and
    the files are as before, and the loop goes on.  An interrupt during
    the sleep ends the loop. *)
Theorem idle_pass_only_sleeps (h : host) (args : Namespace) (p : poll)
    (s : state) :
  data_queue s = Queue.new ->
  let slept := set_trace (trace s ++ [Sleep SLEEP_INTERVAL]) s in
  (sleep p = Ret tt -> iteration h args p s = (Ret Continue, slept))
  /\ (sleep p = Raise KeyboardInterrupt ->
      iteration h args p s = (Ret Break, slept)).
Proof.
  intros Hq slept.
  assert (Hbody : poll_body h args p s = (sleep p, slept)).
  { rewrite (poll_body_idle h args p s Hq).
    unfold do_sleep, bind, emit, modify, lift. reflexivity. }
  split; intros Hs; rewrite Hs in Hbody.
  - apply iteration_of_ret. exact Hbody.
  - apply iteration_of_interrupt. exact Hbody.
Qed.

Lemma idle_pass_only_sleeps_witness :
  let s := sample_state [lit "hello"] [] (Some 5000000) in
  iteration sample_host sample_args (sample_poll 6000000 [] (lit "x")) s
  = (Ret Continue, set_trace [Sleep SLEEP_INTERVAL] s)
  /\ iteration sample_host sample_args
       (poll_with 6000000 [] (Ret tt) (Ret tt) (Raise KeyboardInterrupt)) s
     = (Ret Break, set_trace [Sleep SLEEP_INTERVAL] s).
Proof.
  intros s. split.
  - apply (proj1 (idle_pass_only_sleeps sample_host sample_args
                    (sample_poll 6000000 [] (lit "x")) s eq_refl)).
    reflexivity.
  - apply (proj2 (idle_pass_only_sleeps sample_host sample_args
                    (poll_with 6000000 [] (Ret tt) (Ret tt)
                       (Raise KeyboardInterrupt)) s eq_refl)).
    reflexivity.
Defined.

(** A pass that finds chunks in the queue, up to the drain. *)
Lemma poll_body_drains (h : host) (args : Namespace) (p : poll) (s : state)
    (chunk : bytes) (q : Queue.t) (gap : timedelta) :
  data_queue s = chunk :: q ->
  phrase_time s = None \/ timedelta_seconds h (phrase_timeout args) = Ret gap ->
  poll_body h args p s
  = (if negb (truthy (List.concat (chunk :: q))) then do_sleep p
     else
       audio_np <- lift (convert_audio_to_numpy (List.concat (chunk :: q))) ;;
       emit (Transcribe audio_np (cuda_is_available h)) ;;
       result <- lift (transcribe p audio_np (cuda_is_available h)) ;;
       process_result h args p
         match phrase_time s with
         | None => false
         | Some previous => now p - previous >? gap
         end result)
      (drained p s).
Proof.
  intros Hq Hgap. unfold poll_body.
  unfold bind at 1. unfold gets at 1. rewrite Hq. cbn [Queue.empty negb].
  unfold bind at 1. unfold gets at 1.
  assert (Hpc : phrase_complete h args (phrase_time s) (now p) s
                = (Ret match phrase_time s with
                       | None => false
                       | Some previous => now p - previous >? gap
                       end, s)).
  { destruct (phrase_time s) as [prev|]; [|reflexivity].
    destruct Hgap as [Hgap|Hgap]; [discriminate|].
    unfold phrase_complete, bind, lift. rewrite Hgap. reflexivity. }
  rewrite (bind_ret_eq _ _ _ _ _ Hpc).
  unfold bind at 1. unfold modify at 1.
  unfold bind at 1. rewrite drain_shared_queue_eq.
  cbn [data_queue set_phrase_time]. rewrite Hq. reflexivity.
Qed.

Lemma keeps_update_transcription {B} (f : state -> B) (complete : bool)
    (text : str) :
  (forall l s, f (set_transcription l s) = f s) ->
  keeps f (update_transcription complete text).
Proof.
  intros Hf. unfold update_transcription.
  apply keeps_bind; [apply keeps_gets|intros lines].
  destruct complete; [apply keeps_modify; intros s; apply Hf|].
  apply keeps_bind; [apply keeps_lift|intros l].
  apply keeps_modify. intros s. apply Hf.
Qed.

Lemma keeps_process_result {B} (f : state -> B) (h : host) (args : Namespace)
    (p : poll) (complete : bool) (result : transcribe_result) :
  trace_blind f ->
  (forall l s, f (set_transcription l s) = f s) ->
  keeps f (save_transcription args p) ->
  keeps f (process_result h args p complete result).
Proof.
  intros Ht Hl Hsave. unfold process_result.
  destruct (truthy (strip (result_text result))); [|apply keeps_ret].
  apply keeps_bind; [apply keeps_update_transcription; exact Hl|intros _].
  apply keeps_bind; [apply keeps_gets|intros lines].
  apply keeps_bind; [auto with keeps|intros _]. exact Hsave.
Qed.

(** What a pass does once the queue is drained leaves alone every
    component that the transcript update and the file write leave alone. *)
Lemma keeps_after_drain {B} (f : state -> B) (h : host) (args : Namespace)
    (p : poll) (audio : bytes) (complete : bool) :
  trace_blind f ->
  (forall l s, f (set_transcription l s) = f s) ->
  keeps f (save_transcription args p) ->
  keeps f (if negb (truthy audio) then do_sleep p
           else
             audio_np <- lift (convert_audio_to_numpy audio) ;;
             emit (Transcribe audio_np (cuda_is_available h)) ;;
             result <- lift (transcribe p audio_np (cuda_is_available h)) ;;
             process_result h args p complete result).
Proof.
  intros Ht Hl Hsave. apply keeps_if; [auto with keeps|].
  apply keeps_bind; [apply keeps_lift|intros audio_np].
  apply keeps_bind; [auto with keeps|intros _].
  apply keeps_bind; [apply keeps_lift|intros result].
  apply keeps_process_result; assumption.
Qed.

(** X13. Whenever a pass finds chunks in the queue, it leaves the queue
    empty and the phrase timestamp set to the time of the pass, whatever
    happens afterwards in the pass: empty audio, a failing model, a blank
    text, a failing screen or file. *)
Theorem data_pass_consumes_queue (h : host) (args : Namespace) (p : poll)
    (s : state) (chunk : bytes) (q : Queue.t) (gap : timedelta) :
  data_queue s = chunk :: q ->
  phrase_time s = None \/ timedelta_seconds h (phrase_timeout args) = Ret gap ->
  data_queue (snd (iteration h args p s)) = Queue.new
  /\ phrase_time (snd (iteration h args p s)) = Some (now p).
Proof.
  intros Hq Hgap.
  rewrite !iteration_frame by auto with keeps.
  rewrite (poll_body_drains h args p s chunk q gap Hq Hgap).
  split.
  - rewrite (keeps_after_drain data_queue); try reflexivity;
      auto with keeps.
    apply keeps_save_transcription; [auto with keeps|reflexivity].
  - rewrite (keeps_after_drain phrase_time); try reflexivity;
      auto with keeps.
    apply keeps_save_transcription; [auto with keeps|reflexivity].
Qed.

Lemma data_pass_consumes_queue_witness :
  let s := sample_state [lit "hello"] [[x01; x00]; [x02]] (Some 5000000) in
  data_queue (snd (iteration sample_host sample_args
                     (failing_poll 6000000 []) s)) = Queue.new
  /\ phrase_time (snd (iteration sample_host sample_args
                         (failing_poll 6000000 []) s)) = Some 6000000.
Proof.
  intros s.
  apply (data_pass_consumes_queue sample_host sample_args
           (failing_poll 6000000 []) s [x01; x00] [[x02]] 3000000).
  - reflexivity.
  - right. reflexivity.
Defined.

(** X14. When every chunk in the queue is empty, the drained audio is the
    empty buffer: the model is not called and the pass sleeps like an idle
    one, but the chunks are gone and the phrase timestamp has moved. *)
Theorem empty_audio_is_skipped (h : host) (args : Namespace) (p : poll)
    (s : state) (chunk : bytes) (q : Queue.t) (gap : timedelta) :
  data_queue s = chunk :: q ->
  Forall (fun c => c = []) (chunk :: q) ->
  phrase_time s = None \/ timedelta_seconds h (phrase_timeout args) = Ret gap ->
  sleep p = Ret tt ->
  iteration h args p s
  = (Ret Continue,
     set_trace (trace s ++ [Sleep SLEEP_INTERVAL]) (drained p s)).
Proof.
  intros Hq Hempty Hgap Hsleep. apply iteration_of_ret.
  rewrite (poll_body_drains h args p s chunk q gap Hq Hgap).
  assert (Hc : List.concat (chunk :: q) = []).
  { clear - Hempty. induction Hempty as [|c l -> _ IH]; [reflexivity|].
    simpl. exact IH. }
  rewrite Hc. simpl. unfold do_sleep, bind, emit, modify, lift.
  rewrite Hsleep. reflexivity.
Qed.

Lemma empty_audio_is_skipped_witness :
  let s := sample_state [lit "hello"] [[]; []] (Some 5000000) in
  iteration sample_host sample_args (sample_poll 6000000 [] (lit "x")) s
  = (Ret Continue,
     set_trace [Sleep SLEEP_INTERVAL] (drained (sample_poll 6000000 [] (lit "x")) s)).
Proof.
  intros s.
  apply (empty_audio_is_skipped sample_host sample_args
           (sample_poll 6000000 [] (lit "x")) s [] [[]] 3000000).
  - reflexivity.
  - repeat constructor.
  - right. reflexivity.
  - reflexivity.
Defined.

(** X15. When the model returns a text that is blank after [strip], the
    pass ends there: the transcript is not changed, nothing is cleared or
    printed, no file is written. *)
Theorem blank_text_is_ignored (h : host) (args : Namespace) (p : poll)
    (s : state) (chunk : bytes) (q : Queue.t) (gap : timedelta)
    (audio_np : list Z) (result : transcribe_result) :
  data_queue s = chunk :: q ->
  phrase_time s = None \/ timedelta_seconds h (phrase_timeout args) = Ret gap ->
  truthy (List.concat (chunk :: q)) = true ->
  convert_audio_to_numpy (List.concat (chunk :: q)) = Ret audio_np ->
  transcribe p audio_np (cuda_is_available h) = Ret result ->
  forallb isspace (result_text result) = true ->
  iteration h args p s
  = (Ret Continue,
     set_trace (trace s ++ [Transcribe audio_np (cuda_is_available h)])
       (drained p s)).
Proof.
  intros Hq Hgap Haudio Hconv Hres Hblank. apply iteration_of_ret.
  rewrite (poll_body_reaches_model h args p s chunk q gap audio_np
             Hq Hgap Haudio Hconv).
  unfold bind, lift. rewrite Hres. unfold process_result.
  apply strip_nil_iff in Hblank. rewrite Hblank. reflexivity.
Qed.

Lemma blank_text_is_ignored_witness :
  let s := sample_state [lit "hello"] [[x01; x00]] (Some 5000000) in
  iteration sample_host sample_args (sample_poll 6000000 [] (lit "  ")) s
  = (Ret Continue,
     set_trace [Transcribe [1] false]
       (drained (sample_poll 6000000 [] (lit "  ")) s)).
Proof.
  intros s.
  apply (blank_text_is_ignored sample_host sample_args
           (sample_poll 6000000 [] (lit "  ")) s [x01; x00] [] 3000000 [1]
           {| result_text := lit "  "; result_segments := None |});
    try reflexivity.
  right. reflexivity.
Defined.

(** A pass whose audio the model turns into a non-blank text, up to the
    display. *)
Lemma poll_body_updates (h : host) (args : Namespace) (p : poll) (s : state)
    (chunk : bytes) (q : Queue.t) (gap : timedelta) (audio_np : list Z)
    (result : transcribe_result) :
  data_queue s = chunk :: q ->
  phrase_time s = None \/ timedelta_seconds h (phrase_timeout args) = Ret gap ->
  truthy (List.concat (chunk :: q)) = true ->
  convert_audio_to_numpy (List.concat (chunk :: q)) = Ret audio_np ->
  transcribe p audio_np (cuda_is_available h) = Ret result ->
  truthy (strip (result_text result)) = true ->
  transcription s <> [] ->
  let text := with_confidence h args result (strip (result_text result)) in
  let lines :=
    if match phrase_time s with
       | None => false
       | Some previous => now p - previous >? gap
       end
    then transcription s ++ [text]
    else removelast (transcription s) ++ [text] in
  poll_body h args p s
  = (display_transcription h p lines ;; save_transcription args p)
      (set_trace (trace s ++ [Transcribe audio_np (cuda_is_available h)])
         (set_transcription lines (drained p s))).
Proof.
  intros Hq Hgap Haudio Hconv Hres Htext Hne text lines.
  rewrite (poll_body_reaches_model h args p s chunk q gap audio_np
             Hq Hgap Haudio Hconv).
  unfold bind at 1, lift at 1. rewrite Hres.
  unfold process_result. rewrite Htext.
  unfold bind at 1. rewrite update_transcription_eq by exact Hne.
  unfold bind at 1, gets at 1. reflexivity.
Qed.



Lemma write_file_fails (p : poll) (path content : str) (s : state) (e : exn) :
  file_write p = Raise e ->
  write_file p path content s = (Raise e, after_failed_write p path s).
Proof.
  intros Hw. unfold write_file, after_failed_write. rewrite Hw.
  destruct (file_after_failure p); reflexivity.
Qed.

Lemma save_transcription_fails (args : Namespace) (p : poll) (s : state)
    (path : str) (c : exn_class) (msg : str) :
  output_path args = Some path ->
  file_write p = Raise (Exn c msg) -> subclass c OSError = true ->
  save_transcription args p s
  = (Ret tt,
     set_trace (trace s ++ [LogWarning (lit "Failed to write to output file: "
                                        ++ msg)])
       (after_failed_write p path s)).
Proof.
  intros Hpath Hw Hc. unfold save_transcription. rewrite Hpath.
  unfold try_except, bind, gets. rewrite (write_file_fails _ _ _ _ _ Hw).
  simpl. rewrite Hc. simpl. unfold emit, modify, after_failed_write.
  destruct (file_after_failure p); reflexivity.
Qed.

(** X17. When the write after an update fails with an [IOError], the pass
    logs the warning "Failed to write to output file: ..." and ends
    normally: the transcript keeps its update and the screen has shown
    it.  The output file is untouched if it could not be opened; if the
    failure came after [open], the file has been truncated and holds only
    what was written before the failure. *)
Theorem write_failure_is_logged (h : host) (args : Namespace)
    (p : poll) (s : state) (chunk : bytes) (q : Queue.t) (gap : timedelta)
    (audio_np : list Z) (result : transcribe_result) (path : str)
    (c : exn_class) (msg : str) :
  data_queue s = chunk :: q ->
  phrase_time s = None \/ timedelta_seconds h (phrase_timeout args) = Ret gap ->
  truthy (List.concat (chunk :: q)) = true ->
  convert_audio_to_numpy (List.concat (chunk :: q)) = Ret audio_np ->
  transcribe p audio_np (cuda_is_available h) = Ret result ->
  truthy (strip (result_text result)) = true ->
  transcription s <> [] ->
  subprocess_run p = Ret tt ->
  output_path args = Some path ->
  file_write p = Raise (Exn c msg) ->
  subclass c OSError = true ->
  let text := with_confidence h args result (strip (result_text result)) in
  let lines :=
    if match phrase_time s with
       | None => false
       | Some previous => now p - previous >? gap
       end
    then transcription s ++ [text]
    else removelast (transcription s) ++ [text] in
  let shown :=
    set_trace (trace s ++ Transcribe audio_np (cuda_is_available h)
                          :: clear_command h
                          :: printed_lines lines ++ [PrintCall [] []])
      (set_transcription lines (drained p s)) in
  iteration h args p s
  = (Ret Continue,
     set_trace
       (trace shown
        ++ [LogWarning (lit "Failed to write to output file: " ++ msg)])
       match file_after_failure p with
       | None => shown
       | Some partial =>
           set_files (fun f => if str_eqb f path then Some partial
                               else files s f) shown
       end).
Proof.
  intros Hq Hgap Haudio Hconv Hres Htext Hne Hrun Hpath Hwrite Hclass
         text lines shown.
  apply iteration_of_ret.
  rewrite (poll_body_updates h args p s chunk q gap audio_np result
             Hq Hgap Haudio Hconv Hres Htext Hne).
  fold text. fold lines.
  erewrite bind_ret_eq by (apply display_transcription_ok; exact Hrun).
  rewrite (save_transcription_fails _ _ _ _ _ _ Hpath Hwrite Hclass).
  subst shown. unfold after_failed_write, store, display_events. simpl.
  rewrite <- !app_assoc.
  destruct (file_after_failure p); reflexivity.
Qed.

Lemma write_failure_is_logged_witness :
  let s := sample_state [lit "hello"] [[x01; x00]] (Some 1000000) in
  let opened := poll_write_fails 2000000 (lit "hello there")
                  (Exn OSError (lit "disk full")) (Some []) in
  let refused := poll_write_fails 2000000 (lit "hello there")
                   (Exn PermissionError (lit "permission denied")) None in
  iteration sample_host sample_args opened s
  = (Ret Continue,
     set_trace [Transcribe [1] false;
                SubprocessRun [lit "clear"] false;
                PrintCall (lit "hello there") [NL];
                PrintCall [] [];
                LogWarning (lit "Failed to write to output file: disk full")]
       (set_files (fun f => if str_eqb f (lit "out.txt") then Some []
                            else Some (lit "older text"))
          (set_transcription [lit "hello there"] (drained opened s))))
  /\ files (snd (iteration sample_host sample_args refused s)) (lit "out.txt")
     = Some (lit "older text").
Proof.
  intros s opened refused. split.
  - apply (write_failure_is_logged sample_host sample_args opened s
             [x01; x00] [] 3000000 [1]
             {| result_text := lit "hello there"; result_segments := None |}
             (lit "out.txt") OSError (lit "disk full"));
      try reflexivity.
    + right. reflexivity.
    + discriminate.
  - rewrite (write_failure_is_logged sample_host sample_args refused s
               [x01; x00] [] 3000000 [1]
               {| result_text := lit "hello there"; result_segments := None |}
               (lit "out.txt") PermissionError (lit "permission denied"));
      try reflexivity.
    + right. reflexivity.
    + discriminate.
Defined.

(** X18. The display comes before the write: when clearing the screen
    raises an exception that [clear_console] does not handle, the pass
    logs it as an error during transcription and goes on; the transcript
    has been updated, nothing has been printed and the output file has
    not been written. *)
Theorem display_failure_skips_save (h : host) (args : Namespace)
    (p : poll) (s : state) (chunk : bytes) (q : Queue.t) (gap : timedelta)
    (audio_np : list Z) (result : transcribe_result)
    (c : exn_class) (msg : str) :
  data_queue s = chunk :: q ->
  phrase_time s = None \/ timedelta_seconds h (phrase_timeout args) = Ret gap ->
  truthy (List.concat (chunk :: q)) = true ->
  convert_audio_to_numpy (List.concat (chunk :: q)) = Ret audio_np ->
  transcribe p audio_np (cuda_is_available h) = Ret result ->
  truthy (strip (result_text result)) = true ->
  transcription s <> [] ->
  subprocess_run p = Raise (Exn c msg) ->
  except_classes [SubprocessError; FileNotFoundError] (Exn c msg) = false ->
  let text := with_confidence h args result (strip (result_text result)) in
  let lines :=
    if match phrase_time s with
       | None => false
       | Some previous => now p - previous >? gap
       end
    then transcription s ++ [text]
    else removelast (transcription s) ++ [text] in
  iteration h args p s
  = (Ret Continue,
     set_trace (trace s ++ [Transcribe audio_np (cuda_is_available h);
                            clear_command h;
                            LogError (lit "Error during transcription: "
                                      ++ msg)])
       (set_transcription lines (drained p s))).
Proof.
  intros Hq Hgap Haudio Hconv Hres Htext Hne Hrun Hcatch text lines.
  erewrite iteration_of_error.
  2:{ rewrite (poll_body_updates h args p s chunk q gap audio_np result
                 Hq Hgap Haudio Hconv Hres Htext Hne).
      fold text. fold lines. apply bind_raise_eq.
      rewrite display_transcription_eq, clear_console_eq, Hrun, Hcatch.
      reflexivity. }
  simpl. rewrite <- !app_assoc. reflexivity.
Qed.

Lemma display_failure_skips_save_witness :
  let s := sample_state [lit "hello"] [[x01; x00]] (Some 1000000) in
  let p := poll_with 2000000 (lit "hello there")
             (Raise (Exn OSError (lit "permission denied"))) (Ret tt) (Ret tt) in
  iteration sample_host sample_args p s
  = (Ret Continue,
     set_trace [Transcribe [1] false;
                SubprocessRun [lit "clear"] false;
                LogError (lit "Error during transcription: permission denied")]
       (set_transcription [lit "hello there"] (drained p s)))
  /\ files (snd (iteration sample_host sample_args p s)) (lit "out.txt")
     = Some (lit "older text").
Proof.
  intros s p.
  assert (H : iteration sample_host sample_args p s
    = (Ret Continue,
       set_trace [Transcribe [1] false;
                  SubprocessRun [lit "clear"] false;
                  LogError (lit "Error during transcription: permission denied")]
         (set_transcription [lit "hello there"] (drained p s)))).
  { apply (display_failure_skips_save sample_host sample_args p s
             [x01; x00] [] 3000000 [1]
             {| result_text := lit "hello there"; result_segments := None |}
             OSError (lit "permission denied"));
      try reflexivity.
    - right. reflexivity.
    - discriminate. }
  split; [exact H|]. rewrite H. reflexivity.
Defined.

(* ===================================================================== *)
(** ** Shutdown *)
(* ===================================================================== *)




(* ===================================================================== *)
(** ** The loop as a whole *)
(* ===================================================================== *)

Lemma main_loop_cons (h : host) (args : Namespace) (p : poll)
    (rest : list poll) (s : state) :
  main_loop h args (p :: rest) s
  = match iteration h args p
            (set_data_queue (Queue.put_all (captured p) (data_queue s)) s) with
    | (Ret Continue, s1) => main_loop h args rest s1
    | (Ret Break, s1) => (Ret Left, s1)
    | (Raise e, s1) => (Raise e, s1)
    end.
Proof.
  simpl. unfold bind at 1. rewrite record_callbacks_eq. unfold bind.
  destruct (iteration h args p _) as [[[|]|e] s1]; reflexivity.
Qed.





(* ===================================================================== *)
(** ** The lines of the transcript *)
(* ===================================================================== *)

Lemma nonblank_strip (t : str) : truthy (strip t) = true -> nonblank (strip t).
Proof.
  unfold strip, rstrip. intros H.
  destruct (lstrip (rev (lstrip t))) as [|c r] eqn:E; [discriminate|].
  exists c. split.
  - apply in_rev. rewrite rev_involutive. left. reflexivity.
  - apply (lstrip_head _ _ _ E).
Qed.

Lemma nonblank_app_l (t u : str) : nonblank t -> nonblank (t ++ u).
Proof.
  intros [c [Hin Hc]]. exists c. split; [|exact Hc].
  apply in_or_app. left. exact Hin.
Qed.

Lemma nonblank_with_confidence (h : host) (args : Namespace)
    (result : transcribe_result) (text : str) :
  nonblank text -> nonblank (with_confidence h args result text).
Proof.
  intros H. unfold with_confidence.
  destruct (show_confidence args); [|exact H].
  destruct (result_segments result); [|exact H].
  apply nonblank_app_l. exact H.
Qed.

Lemma Forall_removelast {A} (P : A -> Prop) (l : list A) :
  Forall P l -> Forall P (removelast l).
Proof.
  induction 1 as [|x l Hx Hl IH]; [constructor|].
  simpl. destruct l; [constructor|]. constructor; assumption.
Qed.

Lemma update_keeps_well_formed (complete : bool) (text : str) (s : state) :
  nonblank text -> well_formed_transcript (transcription s) ->
  well_formed_transcript
    (transcription (snd (update_transcription complete text s))).
Proof.
  intros Htext [first [rest [E [Hfirst Hrest]]]].
  rewrite update_transcription_eq by (rewrite E; discriminate).
  simpl. rewrite E. destruct complete.
  - exists first, (rest ++ [text]). split; [reflexivity|].
    split; [exact Hfirst|]. apply Forall_app. split; [exact Hrest|].
    constructor; [exact Htext|constructor].
  - destruct rest as [|second rest].
    + exists text, []. repeat split; [right; exact Htext|constructor].
    + exists first, (removelast (second :: rest) ++ [text]).
      split; [reflexivity|]. split; [exact Hfirst|].
      apply Forall_app. split; [apply Forall_removelast; exact Hrest|].
      constructor; [exact Htext|constructor].
Qed.

Lemma well_formed_after_keeps {A C} (m : M A) (k : A -> M C) :
  keeps transcription m ->
  (forall a s, well_formed_transcript (transcription s) ->
               well_formed_transcript (transcription (snd (k a s)))) ->
  forall s, well_formed_transcript (transcription s) ->
            well_formed_transcript (transcription (snd (bind m k s))).
Proof.
  intros Hm Hk s Hs. unfold bind. specialize (Hm s).
  destruct (m s) as [[a|e] s']; simpl in *.
  - apply Hk. rewrite Hm. exact Hs.
  - rewrite Hm. exact Hs.
Qed.

Lemma well_formed_keeps {A} (m : M A) :
  keeps transcription m ->
  forall s, well_formed_transcript (transcription s) ->
            well_formed_transcript (transcription (snd (m s))).
Proof. intros Hm s Hs. rewrite Hm. exact Hs. Qed.

Lemma poll_body_keeps_well_formed (h : host) (args : Namespace) (p : poll)
    (s : state) :
  well_formed_transcript (transcription s) ->
  well_formed_transcript (transcription (snd (poll_body h args p s))).
Proof.
  revert s. unfold poll_body.
  apply well_formed_after_keeps; [apply keeps_gets|intros q].
  destruct (negb (Queue.empty q));
    [|apply well_formed_keeps; auto with keeps].
  apply well_formed_after_keeps; [apply keeps_gets|intros previous].
  apply well_formed_after_keeps; [auto with keeps|intros complete].
  apply well_formed_after_keeps; [apply keeps_modify; reflexivity|intros _].
  apply well_formed_after_keeps;
    [apply keeps_drain_shared_queue; reflexivity|intros [audio_data|]];
    [|apply well_formed_keeps; auto with keeps].
  destruct (negb (truthy audio_data));
    [apply well_formed_keeps; auto with keeps|].
  apply well_formed_after_keeps; [apply keeps_lift|intros audio_np].
  apply well_formed_after_keeps; [auto with keeps|intros _].
  apply well_formed_after_keeps; [apply keeps_lift|intros result].
  intros s Hs. rewrite process_result_transcription.
  destruct (truthy (strip (result_text result))) eqn:Ht; [|exact Hs].
  apply update_keeps_well_formed; [|exact Hs].
  apply nonblank_with_confidence, nonblank_strip. exact Ht.
Qed.

Lemma main_loop_keeps_well_formed (h : host) (args : Namespace)
    (polls : list poll) (s : state) :
  well_formed_transcript (transcription s) ->
  well_formed_transcript (transcription (snd (main_loop h args polls s))).
Proof.
  revert s. induction polls as [|p polls IH]; intros s Hs; [exact Hs|].
  rewrite main_loop_cons.
  set (s1 := set_data_queue _ s).
  assert (H1 : well_formed_transcript (transcription (snd (iteration h args p s1)))).
  { rewrite iteration_frame by auto with keeps.
    apply poll_body_keeps_well_formed. exact Hs. }
  destruct (iteration h args p s1) as [[[|]|e] s2]; simpl in *.
  - apply IH. exact H1.
  - exact H1.
  - exact H1.
Qed.

Lemma filter_nonblank_all (l : list str) :
  Forall nonblank l -> filter (fun line => truthy (strip line)) l = l.
Proof.
  induction 1 as [|x l Hx _ IH]; [reflexivity|].
  simpl. apply truthy_strip_nonblank in Hx. rewrite Hx, IH. reflexivity.
Qed.

(** X22. Once [main] has started, and after any number of passes, every
    line of the transcript is non-blank except that the first may still
    be the empty placeholder.  The text written to the output file is
    therefore the whole transcript joined by newlines, without the
    placeholder when it is still there. *)
Theorem transcript_lines_are_nonblank (h : host) (args : Namespace)
    (polls : list poll) (s s0 : state) :
  startup h args s = (Ret tt, s0) ->
  let lines := transcription (snd (main_loop h args polls s0)) in
  well_formed_transcript lines
  /\ joined_lines lines
     = join [NL] match lines with
                 | [] :: rest => rest
                 | _ => lines
                 end.
Proof.
  intros Hstart lines.
  assert (Hwf : well_formed_transcript lines).
  { apply main_loop_keeps_well_formed.
    destruct (startup_initialises h args s s0 Hstart) as [-> _].
    exists [], []. repeat split; [left; reflexivity|constructor]. }
  split; [exact Hwf|].
  destruct Hwf as [first [rest [-> [Hfirst Hrest]]]].
  unfold joined_lines. simpl.
  destruct Hfirst as [->|Hfirst].
  - simpl. rewrite (filter_nonblank_all _ Hrest). reflexivity.
  - pose proof Hfirst as Hkeep. apply truthy_strip_nonblank in Hkeep.
    rewrite Hkeep, (filter_nonblank_all _ Hrest).
    destruct first; [|reflexivity].
    destruct Hfirst as [c [[] _]].
Qed.

Lemma transcript_lines_are_nonblank_witness :
  let polls := [failing_poll 0 [[x01; x00]];
                sample_poll 9000000 [[x02; x00]] (lit " hello ");
                sample_poll 9500000 [[x03; x00]] (lit "hello world")] in
  let s0 := snd (startup mac_host sample_args (initial_state empty_disk)) in
  transcription (snd (main_loop mac_host sample_args polls s0))
    = [lit ""; lit "hello world"]
  /\ joined_lines (transcription (snd (main_loop mac_host sample_args polls s0)))
     = lit "hello world".
Proof.
  intros polls s0.
  assert (Hstart : startup mac_host sample_args (initial_state empty_disk)
                   = (Ret tt, s0)) by (vm_compute; reflexivity).
  destruct (transcript_lines_are_nonblank mac_host sample_args polls
              (initial_state empty_disk) s0 Hstart) as [_ Hjoin].
  assert (Hlines : transcription (snd (main_loop mac_host sample_args polls s0))
                   = [lit ""; lit "hello world"])
    by (vm_compute; reflexivity).
  split; [exact Hlines|].
  rewrite Hjoin, Hlines. reflexivity.
Defined.

(* ===================================================================== *)
(** ** What the loop never does *)
(* ===================================================================== *)

Lemma emits_phrase_complete (P : event -> bool) (h : host) (args : Namespace)
    (previous : option datetime) (t : datetime) :
  emits_only P (phrase_complete h args previous t).
Proof. destruct previous; simpl; emits_tac. Qed.

Lemma emits_drain_shared_queue (P : event -> bool) :
  emits_only P drain_shared_queue.
Proof.
  intros s. rewrite drain_shared_queue_eq. exists [].
  rewrite app_nil_r. split; reflexivity.
Qed.

Lemma emits_save_transcription (args : Namespace) (p : poll) :
  emits_only pass_event (save_transcription args p).
Proof.
  unfold save_transcription. destruct (output_path args); [|apply emits_ret].
  unfold write_file. destruct (file_write p) as [[]|e];
    [emits_tac|destruct (file_after_failure p); emits_tac].
Qed.

Lemma emits_display_transcription (h : host) (p : poll) (lines : list str) :
  emits_only pass_event (display_transcription h p lines).
Proof.
  unfold display_transcription, clear_console, run, print. emits_tac.
Qed.

Lemma emits_process_result (h : host) (args : Namespace) (p : poll)
    (complete : bool) (result : transcribe_result) :
  emits_only pass_event (process_result h args p complete result).
Proof.
  unfold process_result.
  destruct (truthy (strip (result_text result))); [|apply emits_ret].
  apply emits_bind; [unfold update_transcription; emits_tac|intros _].
  apply emits_bind; [apply emits_gets|intros lines].
  apply emits_bind; [apply emits_display_transcription|intros _].
  apply emits_save_transcription.
Qed.

Lemma emits_poll_body (h : host) (args : Namespace) (p : poll) :
  emits_only pass_event (poll_body h args p).
Proof.
  unfold poll_body.
  apply emits_bind; [apply emits_gets|intros q].
  apply emits_if; [|unfold do_sleep; emits_tac].
  apply emits_bind; [apply emits_gets|intros previous].
  apply emits_bind; [apply emits_phrase_complete|intros complete].
  apply emits_bind; [apply emits_modify; reflexivity|intros _].
  apply emits_bind; [apply emits_drain_shared_queue|intros [audio|]];
    [|unfold do_sleep; emits_tac].
  apply emits_if; [unfold do_sleep; emits_tac|].
  apply emits_bind; [apply emits_lift|intros audio_np].
  apply emits_bind; [apply emits_emit; reflexivity|intros _].
  apply emits_bind; [apply emits_lift|intros result].
  apply emits_process_result.
Qed.

Lemma emits_iteration (h : host) (args : Namespace) (p : poll) :
  emits_only pass_event (iteration h args p).
Proof.
  intros s. destruct (emits_poll_body h args p s) as [events [T F]].
  unfold iteration. destruct (poll_body h args p s) as [[[]|e] s1];
    simpl in *.
  - exists events. split; assumption.
  - destruct e as [c msg| |code]; simpl.
    + exists (events ++ [LogError (lit "Error during transcription: " ++ msg)]).
      rewrite T, <- app_assoc, forallb_app, F. split; reflexivity.
    + exists events. split; assumption.
    + exists events. split; assumption.
Qed.

Lemma emits_main_loop (h : host) (args : Namespace) (polls : list poll) :
  emits_only pass_event (main_loop h args polls).
Proof.
  induction polls as [|p polls IH]; simpl; [apply emits_ret|].
  apply emits_bind.
  { apply emits_for_each. intros data. unfold record_callback.
    apply emits_modify. reflexivity. }
  intros _. apply emits_bind; [apply emits_iteration|intros c].
  destruct c; [exact IH|apply emits_ret].
Qed.

(** X23. Whatever the passes are answered, the loop only sleeps, calls
    the model, runs the clear command, prints, and logs warnings and
    errors: it never lists or opens a microphone, loads a model, adjusts
    for noise, or starts or stops the recorder. *)
Theorem loop_touches_no_resource (h : host) (args : Namespace)
    (polls : list poll) (s : state) :
  exists events,
    trace (snd (main_loop h args polls s)) = trace s ++ events
    /\ forallb pass_event events = true
    /\ existsb acquires_resource events = false
    /\ ~ In StopListening events.
Proof.
  destruct (emits_main_loop h args polls s) as [events [T F]].
  exists events. split; [exact T|]. split; [exact F|].
  rewrite forallb_forall in F. split.
  - destruct (existsb acquires_resource events) eqn:E; [|reflexivity].
    apply existsb_exists in E as [ev [Hin Hacq]].
    specialize (F ev Hin). destruct ev; discriminate.
  - intros Hin. specialize (F _ Hin). discriminate.
Qed.

Lemma iteration_extends_body (h : host) (args : Namespace) (p : poll)
    (s : state) :
  exists events,
    trace (snd (iteration h args p s))
    = trace (snd (poll_body h args p s)) ++ events.
Proof.
  unfold iteration. destruct (poll_body h args p s) as [[[]|e] s1]; simpl.
  - exists []. rewrite app_nil_r. reflexivity.
  - destruct e as [c msg| |code]; simpl.
    + eexists. reflexivity.
    + exists []. rewrite app_nil_r. reflexivity.
    + exists []. rewrite app_nil_r. reflexivity.
Qed.

(** X24. The model is handed everything the capture thread has recorded
    since the queue was last emptied, in the order of recording: when the
    chunks captured before a pass each decode to samples, the first thing
    the pass does is to call the model on those samples joined in order. *)
Theorem model_hears_captured_audio (h : host) (args : Namespace) (p : poll)
    (s : state) (samples : list (list Z)) (gap : timedelta) :
  data_queue s = Queue.new ->
  Forall2 (fun chunk l => convert_audio_to_numpy chunk = Ret l)
    (captured p) samples ->
  truthy (join [] (captured p)) = true ->
  phrase_time s = None \/ timedelta_seconds h (phrase_timeout args) = Ret gap ->
  exists events,
    trace (snd (main_loop h args [p] s))
    = trace s ++ Transcribe (List.concat samples) (cuda_is_available h)
                 :: events.
Proof.
  intros Hq Hconv Haudio Hgap.
  pose proof (convert_joined_chunks _ _ Hconv) as Hjoined.
  rewrite join_nil_sep in Haudio, Hjoined.
  set (s1 := set_data_queue (Queue.put_all (captured p) (data_queue s)) s).
  assert (Hs1 : data_queue s1 = captured p).
  { subst s1. simpl. rewrite Hq, put_all_app. reflexivity. }
  assert (Hloop : snd (main_loop h args [p] s) = snd (iteration h args p s1)).
  { rewrite main_loop_cons. fold s1.
    destruct (iteration h args p s1) as [[[|]|e] s2]; reflexivity. }
  assert (Hgap1 : phrase_time s1 = None
                  \/ timedelta_seconds h (phrase_timeout args) = Ret gap)
    by exact Hgap.
  assert (Ht1 : trace s1 = trace s) by reflexivity.
  rewrite Hloop, <- Ht1. clearbody s1.
  destruct (captured p) as [|chunk q]; [discriminate|].
  destruct (iteration_extends_body h args p s1) as [ev2 ->].
  rewrite (poll_body_reaches_model h args p s1 chunk q gap
             (List.concat samples) Hs1 Hgap1 Haudio Hjoined).
  match goal with
  | |- context [snd (bind ?m ?k ?st)] =>
      assert (He : emits_only pass_event (bind m k))
  end.
  { apply emits_bind; [apply emits_lift|intros result].
    apply emits_process_result. }
  match goal with
  | |- context [snd (?mk ?st)] => destruct (He st) as [ev1 [-> _]]
  end.
  simpl. exists (ev1 ++ ev2). rewrite <- !app_assoc. reflexivity.
Qed.

Lemma model_hears_captured_audio_witness :
  let p := sample_poll 5000000 [[x01; x00]; [xff; xff; x00; x80]]
             (lit "hello") in
  exists events,
    trace (snd (main_loop sample_host sample_args [p]
                  (sample_state [lit ""] [] None)))
    = Transcribe [1; -1; -32768] false :: events.
Proof.
  intros p.
  apply (model_hears_captured_audio sample_host sample_args p
           (sample_state [lit ""] [] None) [[1]; [-1; -32768]] 3000000).
  - reflexivity.
  - repeat constructor.
  - reflexivity.
  - left. reflexivity.
Defined.

(* ===================================================================== *)
(** ** Files *)
(* ===================================================================== *)

Lemma write_file_keeps_other (p : poll) (path content f : str) :
  str_eqb f path = false ->
  keeps (fun s => files s f) (write_file p path content).
Proof.
  intros Hne. unfold write_file.
  assert (Hstore : forall text,
            keeps (fun s => files s f) (modify (store path text))).
  { intros text. apply keeps_modify. intros s. simpl. rewrite Hne.
    reflexivity. }
  destruct (file_write p) as [[]|e]; [apply Hstore|].
  destruct (file_after_failure p) as [partial|]; [|apply keeps_raise].
  apply keeps_bind; [apply Hstore|intros _; apply keeps_raise].
Qed.

Lemma save_transcription_keeps_other (args : Namespace) (p : poll) (f : str) :
  output_path args <> Some f ->
  keeps (fun s => files s f) (save_transcription args p).
Proof.
  intros Hf. unfold save_transcription.
  destruct (output_path args) as [path|]; [|apply keeps_ret].
  assert (Hne : str_eqb f path = false).
  { apply str_eqb_neq. intros ->. apply Hf. reflexivity. }
  apply keeps_try_except; [|intros e; apply keeps_emit; intros t s; reflexivity].
  apply keeps_bind; [apply keeps_gets|intros lines].
  apply write_file_keeps_other. exact Hne.
Qed.

Lemma save_final_transcription_keeps_other (args : Namespace) (p : poll)
    (f : str) :
  output_path args <> Some f ->
  keeps (fun s => files s f) (save_final_transcription args p).
Proof.
  intros Hf. unfold save_final_transcription.
  destruct (output_path args) as [path|]; [|apply keeps_ret].
  assert (Hne : str_eqb f path = false).
  { apply str_eqb_neq. intros ->. apply Hf. reflexivity. }
  apply keeps_try_except; [|intros e; apply keeps_emit; intros t s; reflexivity].
  apply keeps_bind; [apply keeps_gets|intros lines].
  apply keeps_bind; [|intros _; apply keeps_print; intros t s; reflexivity].
  apply write_file_keeps_other. exact Hne.
Qed.

Lemma poll_body_keeps_other (h : host) (args : Namespace) (p : poll) (f : str) :
  output_path args <> Some f ->
  keeps (fun s => files s f) (poll_body h args p).
Proof.
  intros Hf.
  assert (Hblind : trace_blind (fun s => files s f))
    by (intros t s; reflexivity).
  unfold poll_body.
  apply keeps_bind; [apply keeps_gets|intros q].
  apply keeps_if; [|apply keeps_do_sleep; exact Hblind].
  apply keeps_bind; [apply keeps_gets|intros previous].
  apply keeps_bind; [apply keeps_phrase_complete|intros complete].
  apply keeps_bind; [apply keeps_modify; reflexivity|intros _].
  apply keeps_bind;
    [apply keeps_drain_shared_queue; reflexivity|intros [audio|]];
    [|apply keeps_do_sleep; exact Hblind].
  apply (keeps_after_drain (fun s => files s f)); try reflexivity;
    [exact Hblind|].
  apply save_transcription_keeps_other. exact Hf.
Qed.

Lemma main_loop_keeps_other (h : host) (args : Namespace) (polls : list poll)
    (f : str) :
  output_path args <> Some f ->
  keeps (fun s => files s f) (main_loop h args polls).
Proof.
  intros Hf. induction polls as [|p polls IH]; intros s; [reflexivity|].
  rewrite main_loop_cons.
  set (s1 := set_data_queue _ s).
  assert (H1 : files (snd (iteration h args p s1)) f = files s f).
  { rewrite (iteration_frame (fun s => files s f))
      by (intros t s0; reflexivity).
    apply (poll_body_keeps_other h args p f Hf s1). }
  destruct (iteration h args p s1) as [[[|]|e] s2]; simpl in *.
  - rewrite IH. exact H1.
  - exact H1.
  - exact H1.
Qed.

(** X25. The only file the program ever writes is the output file: over a
    whole run of [main], start-up, any passes and the [finally] block
    included, every other path keeps the content it had; with no output
    file (or an empty path) no file is written at all. *)
Theorem only_the_output_file_is_written (h : host) (args : Namespace)
    (polls : list poll) (final : poll) (s : state) (f : str) :
  output_path args <> Some f ->
  files (snd (main h args polls final s)) f = files s f.
Proof.
  intros Hf.
  assert (Hblind : trace_blind (fun s => files s f))
    by (intros t s0; reflexivity).
  assert (Hstart : keeps (fun s => files s f) (startup h args)).
  { unfold startup.
    repeat first
      [ apply keeps_get_microphone_source; exact Hblind
      | apply keeps_load_whisper_model; exact Hblind
      | apply keeps_emit; exact Hblind
      | apply keeps_print; exact Hblind
      | apply keeps_sys_exit
      | apply keeps_lift
      | apply keeps_modify; reflexivity
      | apply keeps_bind; [|intros ?]
      | apply keeps_try_except; [|intros ?]
      | apply keeps_if ]. }
  assert (Hclean : keeps (fun s => files s f) (cleanup args final)).
  { unfold cleanup.
    apply keeps_bind; [apply keeps_emit; exact Hblind|intros _].
    apply keeps_bind; [apply keeps_print; exact Hblind|intros _].
    apply keeps_bind; [apply keeps_gets|intros lines].
    apply keeps_bind; [apply keeps_print_lines; exact Hblind|intros _].
    apply keeps_bind;
      [apply save_final_transcription_keeps_other; exact Hf|intros _].
    apply keeps_emit; exact Hblind. }
  unfold main, bind at 1. specialize (Hstart s).
  destruct (startup h args s) as [[[]|e] s0]; simpl in *; [|exact Hstart].
  pose proof (main_loop_keeps_other h args polls f Hf s0) as Hloop.
  simpl in Hloop.
  destruct (main_loop h args polls s0) as [[[|]|e] s1]; simpl in *.
  - rewrite (snd_bind_keeps (fun s => files s f))
      by (intros _; apply keeps_ret).
    rewrite Hclean, Hloop. exact Hstart.
  - rewrite Hloop. exact Hstart.
  - rewrite (snd_bind_keeps (fun s => files s f))
      by (intros _; apply keeps_raise).
    rewrite Hclean, Hloop. exact Hstart.
Qed.

Lemma only_the_output_file_is_written_witness :
  let run := main mac_host sample_args
               [sample_poll 0 [[x01; x00]] (lit "hello");
                poll_with 250000 [] (Ret tt) (Ret tt) (Raise KeyboardInterrupt)]
               (sample_poll 0 [] []) (initial_state empty_disk) in
  files (snd run) (lit "notes.txt") = None
  /\ files (snd run) (lit "out.txt") = Some (lit "hello").
Proof.
  intros run. split.
  - apply (only_the_output_file_is_written mac_host sample_args
             [sample_poll 0 [[x01; x00]] (lit "hello");
              poll_with 250000 [] (Ret tt) (Ret tt) (Raise KeyboardInterrupt)]
             (sample_poll 0 [] []) (initial_state empty_disk)
             (lit "notes.txt")).
    vm_compute. discriminate.
  - vm_compute. reflexivity.
Defined.

(* ===================================================================== *)
(** ** Timeouts that are not numbers *)
(* ===================================================================== *)

Lemma float_leb0_false_iff (x : float) :
  float_leb0 x = false <-> passes_timeout_check x.
Proof.
  unfold float_leb0, SFleb, SFcompare.
  destruct x as [sg|sg| |sg m e]; simpl; try destruct sg; simpl;
    split; intros H; try reflexivity; try exact I; try discriminate;
    try contradiction.
Qed.

(** X26. [validate_arguments] accepts a configuration exactly when the
    energy threshold is non-negative and each of the two timeouts is a
    positive number, plus infinity or NaN: the timeouts are only tested
    with [<= 0], which is false on NaN, so a record timeout or a phrase
    timeout that is NaN or infinite is accepted. *)
Theorem validation_accepts_exactly (args : Namespace) :
  validate_arguments args = Ret tt
  <-> 0 <= energy_threshold args
      /\ passes_timeout_check (record_timeout args)
      /\ passes_timeout_check (phrase_timeout args).
Proof.
  unfold validate_arguments, int_ltb0.
  rewrite <- !float_leb0_false_iff.
  destruct (Z.ltb_spec (energy_threshold args) 0) as [Hlt|Hge].
  { split; [discriminate|]. intros [H _]. lia. }
  destruct (float_leb0 (record_timeout args)).
  { split; [discriminate|]. intros [_ [H _]]. discriminate. }
  destruct (float_leb0 (phrase_timeout args)).
  { split; [discriminate|]. intros [_ [_ H]]. discriminate. }
  split; [intros _; repeat split; assumption|reflexivity].
Qed.

Lemma validation_accepts_exactly_witness :
  validate_arguments (with_phrase_timeout S754_nan sample_args) = Ret tt
  /\ validate_arguments
       (with_record_timeout (S754_infinity false) sample_args) = Ret tt.
Proof.
  split.
  - apply (proj2 (validation_accepts_exactly
                    (with_phrase_timeout S754_nan sample_args))).
    split; [vm_compute; discriminate|]. split; [reflexivity|exact I].
  - apply (proj2 (validation_accepts_exactly
                    (with_record_timeout (S754_infinity false) sample_args))).
    split; [vm_compute; discriminate|]. split; reflexivity.
Defined.

(** X27. The gap is built only after a first pass has set the phrase
    timestamp, and before the queue is drained.  If building it raises
    (the phrase timeout cannot be turned into a [timedelta]), every later
    pass that finds audio logs the error and does nothing else: the audio
    stays in the queue, joined by whatever is captured next, the
    timestamp and the transcript do not move, and the loop goes round
    without sleeping. *)
Theorem unbuildable_gap_stalls_the_loop (h : host) (args : Namespace)
    (polls : list poll) (s : state) (chunk : bytes) (q : Queue.t)
    (previous : datetime) (c : exn_class) (msg : str) :
  data_queue s = chunk :: q ->
  phrase_time s = Some previous ->
  timedelta_seconds h (phrase_timeout args) = Raise (Exn c msg) ->
  main_loop h args polls s
  = (Ret Looping,
     set_trace
       (trace s ++ repeat (LogError (lit "Error during transcription: " ++ msg))
                          (List.length polls))
       (set_data_queue (data_queue s ++ List.concat (map captured polls)) s)).
Proof.
  intros Hq Hprev Hgap. revert s chunk q Hq Hprev.
  induction polls as [|p polls IH]; intros s chunk q Hq Hprev.
  - simpl. rewrite !app_nil_r, set_data_queue_same, set_trace_same.
    reflexivity.
  - rewrite main_loop_cons.
    set (s1 := set_data_queue (Queue.put_all (captured p) (data_queue s)) s).
    assert (Hq1 : data_queue s1 = chunk :: (q ++ captured p)).
    { subst s1. simpl. rewrite put_all_app, Hq. reflexivity. }
    assert (Hbody : poll_body h args p s1 = (Raise (Exn c msg), s1)).
    { unfold poll_body. unfold bind at 1, gets at 1. rewrite Hq1.
      cbn [Queue.empty negb]. unfold bind at 1, gets at 1.
      apply bind_raise_eq.
      change (phrase_time s1) with (phrase_time s). rewrite Hprev.
      unfold phrase_complete, bind, lift. rewrite Hgap. reflexivity. }
    rewrite (iteration_of_error _ _ _ _ _ _ _ Hbody).
    erewrite IH; [|exact Hq1|exact Hprev].
    simpl. subst s1. simpl. rewrite put_all_app.
    rewrite <- !app_assoc. reflexivity.
Qed.

Lemma unbuildable_gap_stalls_the_loop_witness :
  let s := sample_state [lit "hello"] [[x01; x00]] (Some 1000000) in
  main_loop nan_host sample_args
    [sample_poll 2000000 [] (lit "x"); sample_poll 3000000 [[x02; x00]] (lit "y")]
    s
  = (Ret Looping,
     set_trace
       [LogError (lit "Error during transcription: cannot convert float NaN to integer");
        LogError (lit "Error during transcription: cannot convert float NaN to integer")]
       (set_data_queue [[x01; x00]; [x02; x00]] s)).
Proof.
  intros s.
  apply (unbuildable_gap_stalls_the_loop nan_host sample_args
           [sample_poll 2000000 [] (lit "x");
            sample_poll 3000000 [[x02; x00]] (lit "y")]
           s [x01; x00] [] 1000000 ValueError
           (lit "cannot convert float NaN to integer")); reflexivity.
Defined.
